(** * doc_to_word.py: section splitting, fence extraction, document assembly

    A shallow embedding of [src/doc_to_word.py].  Python [str] values are
    sequences of Unicode code points; the functions of the [re] module that
    the script calls are embedded as a small backtracking matcher over the
    fragment of the pattern language the script's four patterns use. *)

From stdpp Require Import gmap list strings.
From Stdlib Require Import NArith Ascii.

Local Open Scope N_scope.

(** ** Python strings *)

(** A code point. *)
Abbreviation char := N (only parsing).
(** A Python [str]. *)
Abbreviation str := (list N) (only parsing).

Module Lit.
(** Reading of string literals the way Python reads those of the script:
    the source file is UTF-8 ([# -*- coding: utf-8 -*-]), here for code
    points of up to three bytes, with the escapes [\n], [\r], [\t] and
    [\\]. *)

Fixpoint bytes (s : string) : list N :=
  match s with
  | EmptyString => []
  | String a s' => N_of_ascii a :: bytes s'
  end.

Fixpoint unescape (bs : list N) : list N :=
  match bs with
  | 92 :: 110 :: bs' => 10 :: unescape bs'
  | 92 :: 114 :: bs' => 13 :: unescape bs'
  | 92 :: 116 :: bs' => 9 :: unescape bs'
  | 92 :: 92 :: bs' => 92 :: unescape bs'
  | b :: bs' => b :: unescape bs'
  | [] => []
  end.

Fixpoint utf8 (bs : list N) : list N :=
  match bs with
  | [] => []
  | b0 :: bs1 =>
      if b0 <? 192 then b0 :: utf8 bs1
      else match bs1 with
           | [] => [b0]
           | b1 :: bs2 =>
               if b0 <? 224 then ((b0 - 192) * 64 + (b1 - 128)) :: utf8 bs2
               else match bs2 with
                    | [] => [b0; b1]
                    | b2 :: bs3 =>
                        ((b0 - 224) * 4096 + (b1 - 128) * 64 + (b2 - 128))
                          :: utf8 bs3
                    end
           end
  end.

Definition py (s : string) : list N := utf8 (unescape (bytes s)).

End Lit.

Abbreviation py := Lit.py.

Definition NL : char := 10.
Definition COLON : char := 58.
Definition BACKTICK : char := 96.

(** [Py_UNICODE_ISSPACE]: the predicate behind both [str.strip()] and the
    pattern class [\s] on [str] patterns. *)
Definition is_space (c : char) : bool :=
  ((9 <=? c) && (c <=? 13)) || ((28 <=? c) && (c <=? 32))
  || (c =? 133) || (c =? 160) || (c =? 5760)
  || ((8192 <=? c) && (c <=? 8202))
  || (c =? 8232) || (c =? 8233) || (c =? 8239) || (c =? 8287) || (c =? 12288).

(** Line boundaries of [str.splitlines()]. *)
Definition is_linebreak (c : char) : bool :=
  ((10 <=? c) && (c <=? 13)) || ((28 <=? c) && (c <=? 30))
  || (c =? 133) || (c =? 8232) || (c =? 8233).

(** [s.lstrip()] / [s.rstrip()] / [s.strip()] generalised over the set of
    stripped characters. *)
Fixpoint lstrip_with (p : char → bool) (s : str) : str :=
  match s with
  | c :: s' => if p c then lstrip_with p s' else s
  | [] => []
  end.

Definition rstrip_with (p : char → bool) (s : str) : str :=
  reverse (lstrip_with p (reverse s)).

Definition strip (s : str) : str := rstrip_with is_space (lstrip_with is_space s).

(** [s.startswith(pat)] *)
Fixpoint startswith (pat s : str) : bool :=
  match pat, s with
  | [], _ => true
  | p :: pat', c :: s' => (p =? c) && startswith pat' s'
  | _ :: _, [] => false
  end.

(** [s.find(pat)], with [None] for [-1]. *)
Fixpoint find (pat s : str) : option nat :=
  if startswith pat s then Some 0%nat
  else match s with
       | [] => None
       | _ :: s' => S <$> find pat s'
       end.

(** [pat in s] *)
Definition contains (pat s : str) : bool :=
  match find pat s with Some _ => true | None => false end.

(** [s.split(NL)], the split of a text at its newlines *)
Fixpoint split_nl (s : str) : list str :=
  match s with
  | [] => [[]]
  | c :: s' =>
      if c =? NL then [] :: split_nl s'
      else match split_nl s' with
           | l :: ls => (c :: l) :: ls
           | [] => [[c]]
           end
  end.

(** [s.replace(CR NL, NL)] *)
Fixpoint replace_crlf (s : str) : str :=
  match s with
  | 13 :: 10 :: s' => 10 :: replace_crlf s'
  | c :: s' => c :: replace_crlf s'
  | [] => []
  end.

(** [s.splitlines()]: [cur] is the current line, reversed. *)
Fixpoint splitlines_from (cur : str) (s : str) : list str :=
  match s with
  | [] => match cur with [] => [] | _ => [reverse cur] end
  | 13 :: 10 :: s' => reverse cur :: splitlines_from [] s'
  | c :: s' =>
      if is_linebreak c then reverse cur :: splitlines_from [] s'
      else splitlines_from (c :: cur) s'
  end.

Definition splitlines (s : str) : list str := splitlines_from [] s.

(** Truth value of a [str] and of an [Optional[str]]. *)
Definition truthy (s : str) : bool :=
  match s with [] => false | _ => true end.

Definition truthy_opt (o : option str) : bool :=
  match o with Some s => truthy s | None => false end.

(** ** The [re] fragment *)

Module Re.

(** Quantifiers [?], [*], [+] (greedy) and [*?] (lazy). *)
Inductive quant := Opt | Star | Plus | StarLazy.

(** Patterns: a character set, a quantified character set, concatenation
    and a numbered capture group.  A character set stands for a literal, a
    class such as [\s] or [[^:\n]], or [.] under [re.S]. *)
Inductive regex :=
| Eps
| Chr (p : char → bool)
| Rep (q : quant) (p : char → bool)
| Cat (r1 r2 : regex)
| Grp (n : nat) (r : regex).

Section Matcher.
Context {A : Type}.

(** [p*] followed by [k]: longest run first, then shorter ones. *)
Fixpoint star (p : char → bool) (s : str) (k : str → option A) : option A :=
  match s with
  | c :: s' =>
      if p c then
        match star p s' k with
        | Some x => Some x
        | None => k s
        end
      else k s
  | [] => k []
  end.

(** [p*?] followed by [k]: shortest run first. *)
Fixpoint star_lazy (p : char → bool) (s : str) (k : str → option A)
  : option A :=
  match k s with
  | Some x => Some x
  | None =>
      match s with
      | c :: s' => if p c then star_lazy p s' k else None
      | [] => None
      end
  end.

Definition rep (q : quant) (p : char → bool) (s : str) (k : str → option A)
  : option A :=
  match q with
  | Star => star p s k
  | StarLazy => star_lazy p s k
  | Plus =>
      match s with
      | c :: s' => if p c then star p s' k else None
      | [] => None
      end
  | Opt =>
      match s with
      | c :: s' =>
          if p c then
            match k s' with
            | Some x => Some x
            | None => k s
            end
          else k s
      | [] => k []
      end
  end.

(** The text between the start [s] of a group and the rest [s'] of the
    input at its end. *)
Definition captured (s s' : str) : str :=
  take (length s - length s') s.

(** Backtracking match of [r] at the head of [s], with the groups [g] set
    so far; [k] is the rest of the pattern. *)
Fixpoint run (r : regex) (s : str) (g : gmap nat str)
    (k : str → gmap nat str → option A) : option A :=
  match r with
  | Eps => k s g
  | Chr p =>
      match s with
      | c :: s' => if p c then k s' g else None
      | [] => None
      end
  | Rep q p => rep q p s (λ s', k s' g)
  | Cat r1 r2 => run r1 s g (λ s1 g1, run r2 s1 g1 k)
  | Grp n r1 => run r1 s g (λ s' g', k s' (<[n := captured s s']> g'))
  end.

End Matcher.

(** A match object: the input after the match ([string[m.end():]]) and the
    groups. *)
Record match_obj := Match { m_rest : str; m_groups : gmap nat str }.

(** [m.group(n)], [None] when the group took no part in the match. *)
Definition group (m : match_obj) (n : nat) : option str := m_groups m !! n.

(** [re.match(r, s)] *)
Definition re_match (r : regex) (s : str) : option match_obj :=
  run r s ∅ (λ s' g, Some (Match s' g)).

(** [re.search(r, s)]: the match at the leftmost position that has one. *)
Fixpoint re_search (r : regex) (s : str) : option match_obj :=
  match re_match r s with
  | Some m => Some m
  | None =>
      match s with
      | [] => None
      | _ :: s' => re_search r s'
      end
  end.

(** The loop of [re.split(r, s)] for a pattern without groups whose matches
    are never empty: [cur] is the piece since the last match, reversed.
    Each round either ends the piece at a match and goes on after it, or
    moves one character into the piece. *)
Fixpoint split_loop (fuel : nat) (r : regex) (cur : str) (s : str)
  : list str :=
  match fuel with
  | O => [reverse cur ++ s]
  | S fuel' =>
      match re_match r s with
      | Some m => reverse cur :: split_loop fuel' r [] (m_rest m)
      | None =>
          match s with
          | [] => [reverse cur]
          | c :: s' => split_loop fuel' r (c :: cur) s'
          end
      end
  end.

Definition re_split (r : regex) (s : str) : list str :=
  split_loop (S (length s)) r [] s.

(** Literal text as a pattern. *)
Fixpoint lit (s : str) : regex :=
  match s with
  | [] => Eps
  | c :: s' => Cat (Chr (N.eqb c)) (lit s')
  end.

End Re.

Import Re.

Notation "r1 >> r2" := (Cat r1 r2) (at level 60, right associativity).

(** [m.group(n)] for a group of the pattern.  No group of this fragment is
    optional, so in a match every group of the pattern is set (see
    [re_match_groups] below) and [m.group(n)] is a [str]. *)
Definition group_str (m : match_obj) (n : nat) : str :=
  default [] (group m n).

(** [a or b] on strings. *)
Definition str_or (a b : str) : str := if truthy a then a else b.

(** [o or b] for [o : Optional[str]]. *)
Definition opt_or (o : option str) (b : str) : str :=
  match o with Some a => str_or a b | None => b end.

(** ** The script *)

Definition SECTION_KEYS : list str :=
  [ py "Título"; py "Descrição"; py "Entradas"; py "Saídas";
    py "Fluxo de Execução"; py "Dependências"; py "Erros Comuns";
    py "Exemplo de Uso" ].

(** Character sets of the patterns. *)
Definition not_colon_nl (c : char) : bool := negb (c =? COLON) && negb (c =? NL).
Definition not_nl (c : char) : bool := negb (c =? NL).
Definition any (c : char) : bool := true.

Definition FENCE : str := py "```".
Definition MARKER : str := py "###".

(** The pattern of [re.split]: [\n?###\s+] *)
Definition heading_re : regex :=
  Rep Opt (N.eqb NL) >> lit MARKER >> Rep Plus is_space.

(** The first pattern of [re.match], under [re.S] (tokens spaced out):
    [( [^:\n]+ ) : \s* \n ( .* )] *)
Definition strict_re : regex :=
  Grp 1 (Rep Plus not_colon_nl) >> Chr (N.eqb COLON) >> Rep Star is_space
  >> Chr (N.eqb NL) >> Grp 2 (Rep Star any).

(** The second pattern of [re.match], under [re.S] (tokens spaced out):
    [( [^:\n]+ ) : \s* ( .* )] *)
Definition single_re : regex :=
  Grp 1 (Rep Plus not_colon_nl) >> Chr (N.eqb COLON) >> Rep Star is_space
  >> Grp 2 (Rep Star any).

(** The pattern of [re.search], under [re.S] (tokens spaced out):
    [``` [^\n]* \n ( .*? ) ```] *)
Definition fence_re : regex :=
  lit FENCE >> Rep Star not_nl >> Chr (N.eqb NL)
  >> Grp 1 (Rep StarLazy any) >> lit FENCE.

(** The two ordered match attempts on a chunk. *)
Definition match_chunk (ch : str) : option match_obj :=
  match re_match strict_re ch with
  | Some m => Some m
  | None => re_match single_re ch
  end.

(** The body of the loop of [split_sections]. *)
Definition add_chunk (sections : gmap (list N) (list N)) (ch : str)
  : gmap (list N) (list N) :=
  if negb (truthy (strip ch)) then sections
  else match match_chunk ch with
       | Some m =>
           let key := strip (group_str m 1) in
           let val := strip (str_or (group_str m 2) []) in
           <[key := val]> sections
       | None => sections
       end.

Definition chunks (md_text : str) : list str :=
  re_split heading_re (replace_crlf md_text).

Definition split_sections (md_text : str) : gmap (list N) (list N) :=
  foldl add_chunk ∅ (chunks md_text).

Definition extract_fenced_code (md : str) : option str :=
  match re_search fence_re md with
  | Some m => Some (rstrip_with (N.eqb NL) (group_str m 1))
  | None => None
  end.

(** *** Document assembly

    The document is the sequence of calls [build] makes on the [docx]
    document, each taken to return normally. *)
Inductive doc_op :=
| title_paragraph (text : str)
    (** [doc.add_paragraph(title)] styled DocTitle, followed by
        [doc.add_heading(title, level=1)] when the styling raises *)
| heading (text : str) (level : nat)
    (** [doc.add_heading(text, level=level)] *)
| paragraph (text : str) (style : str)
    (** [doc.add_paragraph(text, style=style)] *)
| bullet (item : str)
    (** a List Paragraph with the bold bullet run and the run [item] *)
| code_paragraph (style : option str) (text : str) (line_break : bool).
    (** a paragraph of [add_code_block]: its style when the template has
        it, its run, and whether a line break follows the run *)

Fixpoint code_paragraphs (style : option str) (lines : list str)
  : list doc_op :=
  match lines with
  | [] => []
  | [line] => [code_paragraph style (str_or line (py " ")) false]
  | line :: rest =>
      code_paragraph style (str_or line (py " ")) true
        :: code_paragraphs style rest
  end.

(** [styles] tells which style names [doc.styles] of the template has. *)
Definition add_code_block (styles : str → bool) (text : str)
    (style_name : str) : list doc_op :=
  let has_style := styles style_name in
  let lines := split_nl (replace_crlf text) in
  code_paragraphs (if has_style then Some style_name else None) lines.

Definition LIST_KEYS : list str :=
  [ py "Entradas"; py "Saídas"; py "Dependências"; py "Erros Comuns" ].

Definition EXEMPLO : str := py "Exemplo de Uso".

(** The bullet marker: a hyphen and a space. *)
Definition DASH : str := py "- ".

(** The comprehension [ln[2:].strip() for ln in content.splitlines()
    if ln.strip().startswith(DASH)]. *)
Definition bullet_items (content : str) : list str :=
  (λ ln, strip (drop 2 ln))
    <$> filter (λ ln, startswith DASH (strip ln) = true)
          (splitlines content).

(** The body of the loop over [SECTION_KEYS], after [if not content:
    continue]. *)
Definition render_section (styles : str → bool) (key content : str)
  : list doc_op :=
  heading key 2 ::
  if bool_decide (key ∈ LIST_KEYS) then
    match bullet_items content with
    | [] => [paragraph content (py "NormalText")]
    | items => bullet <$> items
    end
  else if bool_decide (key = EXEMPLO)
          && truthy_opt (extract_fenced_code content) then
    add_code_block styles (opt_or (extract_fenced_code content) [])
      (py "CodeBlock")
  else [paragraph content (py "NormalText")].

Definition render_key (styles : str → bool) (sections : gmap (list N) (list N))
    (key : str) : list doc_op :=
  match sections !! key with
  | Some content =>
      if negb (truthy content) then [] else render_section styles key content
  | None => []
  end.

(** The last [if] of the assembly: [EXEMPLO in sections and not
    extract_fenced_code(sections[EXEMPLO]) and code_from_md]. *)
Definition example_fallback (styles : str → bool)
    (sections : gmap (list N) (list N)) (code_from_md : option str)
  : list doc_op :=
  match sections !! EXEMPLO with
  | Some content =>
      if negb (truthy_opt (extract_fenced_code content))
         && truthy_opt code_from_md
      then heading EXEMPLO 2
             :: add_code_block styles (default [] code_from_md)
                  (py "CodeBlock")
      else []
  | None => []
  end.

(** The loop over [SECTION_KEYS]. *)
Definition render_sections (styles : str → bool)
    (sections : gmap (list N) (list N)) : list doc_op :=
  SECTION_KEYS ≫= render_key styles sections.

(** The last step: [if include_source: ...]. *)
Definition source_annex (styles : str → bool) (source_code : str)
    (include_source : bool) : list doc_op :=
  if include_source
  then heading (py "Código-Fonte (Anexo)") 2
         :: add_code_block styles source_code (py "CodeBlock")
  else [].

(** [build], from the texts of the two input files on: the calls made on
    the document before [doc.save].  [src_name] is [src.name]. *)
Definition build (styles : str → bool) (md_text src_name source_code : str)
    (include_source : bool) : list doc_op :=
  let sections := split_sections md_text in
  let code_from_md := extract_fenced_code md_text in
  let title := opt_or (sections !! py "Título") src_name in
  title_paragraph title
    :: render_sections styles sections
    ++ example_fallback styles sections code_from_md
    ++ source_annex styles source_code include_source.

(** ** Vocabulary of the statements *)

(** What a pattern matches, without the search order: [matches r a g g']
    says that [r] matches the text [a] and turns the groups [g] into
    [g']. *)
Inductive matches : regex → list N → gmap nat (list N) → gmap nat (list N) → Prop :=
| matches_eps g : matches Eps [] g g
| matches_chr p c g : p c = true → matches (Chr p) [c] g g
| matches_rep q p a g :
    Forall (λ c, p c = true) a →
    (q = Plus → a ≠ []) →
    (q = Opt → (length a ≤ 1)%nat) →
    matches (Rep q p) a g g
| matches_cat r1 r2 a1 a2 g g1 g2 :
    matches r1 a1 g g1 → matches r2 a2 g1 g2 →
    matches (r1 >> r2) (a1 ++ a2) g g2
| matches_grp n r a g g' :
    matches r a g g' → matches (Grp n r) a g (<[n := a]> g').

(** The least number of characters a match of the pattern takes. *)
Fixpoint min_len (r : regex) : nat :=
  match r with
  | Eps => 0
  | Chr _ => 1
  | Rep Plus _ => 1
  | Rep _ _ => 0
  | r1 >> r2 => min_len r1 + min_len r2
  | Grp _ r1 => min_len r1
  end.

(** The groups a pattern sets. *)
Fixpoint groups_of (r : regex) : list nat :=
  match r with
  | Eps | Chr _ | Rep _ _ => []
  | r1 >> r2 => groups_of r1 ++ groups_of r2
  | Grp n r1 => n :: groups_of r1
  end.

(** The entry a chunk adds to the mapping, if any: the key and the value
    that [add_chunk] stores for it. *)
Definition chunk_entry (ch : list N) : option (list N * list N) :=
  if negb (truthy (strip ch)) then None
  else match match_chunk ch with
       | Some m =>
           Some (strip (group_str m 1), strip (str_or (group_str m 2) []))
       | None => None
       end.

(** A text with no whitespace at either end. *)
Definition trimmed (s : list N) : Prop :=
  (∀ c, head s = Some c → is_space c = false)
  ∧ (∀ c, last s = Some c → is_space c = false).

(** [md] has a fenced block: after [pre], an opening marker, the rest
    [tag] of its line, a newline, the content [body], a closing marker, and
    [rest]. *)
Definition fenced_block (md pre tag body rest : list N) : Prop :=
  md = pre ++ FENCE ++ tag ++ NL :: body ++ FENCE ++ rest
  ∧ Forall (λ c, c ≠ NL) tag.

(** The lines of [md] that have a fence marker. *)
Definition fence_lines (md : list N) : list (list N) :=
  filter (λ ln, contains FENCE ln = true) (split_nl md).

(** A bullet line: after whitespace, if any, the marker [DASH] and then a
    rest that is not all whitespace. *)
Definition is_bullet_line (ln : list N) : bool :=
  let body := lstrip_with is_space ln in
  startswith DASH body && existsb (λ c, negb (is_space c)) (drop 2 body).

(** The items as the specification words them: the lines that start with
    [DASH], without that marker. *)
Definition literal_bullet_items (content : list N) : list (list N) :=
  drop 2 <$> filter (λ ln, startswith DASH ln = true) (splitlines content).

(** The claim on the items as the specification words it. *)
Definition literal_bullet_claim (content : list N) : Prop :=
  bullet_items content = literal_bullet_items content.

(** The loop over [SECTION_KEYS] has rendered the section [EXEMPLO] as a
    code block. *)
Definition exemplo_consumed (sections : gmap (list N) (list N)) : bool :=
  match sections !! EXEMPLO with
  | Some content => truthy content && truthy_opt (extract_fenced_code content)
  | None => false
  end.

(** The claim on the fallback as the specification words it: the fallback
    fires exactly when the text has a fenced block that the loop has not
    rendered. *)
Definition fallback_claim (styles : list N → bool) (md_text : list N) : Prop :=
  example_fallback styles (split_sections md_text)
    (extract_fenced_code md_text) ≠ []
  ↔ is_Some (extract_fenced_code md_text)
    ∧ exemplo_consumed (split_sections md_text) = false.

(** ** Vocabulary of the further properties *)

(** [s] with every newline written CR LF. *)
Fixpoint to_crlf (s : list N) : list N :=
  match s with
  | [] => []
  | c :: s' => if c =? NL then 13 :: 10 :: to_crlf s' else c :: to_crlf s'
  end.

(** The first line of a text. *)
Definition first_line (s : list N) : list N := hd [] (split_nl s).

(** A report: one block [### title:], newline, content, newline per
    entry. *)
Definition render_block (e : list N * list N) : list N :=
  MARKER ++ 32 :: fst e ++ COLON :: NL :: snd e ++ [NL].

Fixpoint render_report (l : list (list N * list N)) : list N :=
  match l with
  | [] => []
  | e :: l' => render_block e ++ render_report l'
  end.

(** The chunk of an entry of a report. *)
Definition piece (e : list N * list N) : list N :=
  fst e ++ COLON :: NL :: snd e.

(** The entries a report is split back into: the title is not empty,
    stripped and without colon or newline, the content is stripped, and
    neither has the marker or a carriage return. *)
Definition valid_entry (e : list N * list N) : Prop :=
  fst e ≠ [] ∧ trimmed (fst e) ∧ Forall (λ c, not_colon_nl c = true) (fst e)
  ∧ trimmed (snd e)
  ∧ contains MARKER (fst e) = false ∧ contains MARKER (snd e) = false
  ∧ (13 ∉ fst e) ∧ (13 ∉ snd e).

(** The runs of the paragraphs of a code block. *)
Definition code_text (op : doc_op) : option (list N) :=
  match op with code_paragraph _ t _ => Some t | _ => None end.

Definition code_texts (ops : list doc_op) : list (list N) := omap code_text ops.

(** [NL.join(ls)] *)
Fixpoint join_nl (ls : list (list N)) : list N :=
  match ls with
  | [] => []
  | [l] => l
  | l :: ls' => l ++ NL :: join_nl ls'
  end.

(** The number of newlines of a text. *)
Definition count_nl (s : list N) : nat := length (filter (λ c, c = NL) s).

(** The style of the paragraphs of a code block. *)
Definition code_style (styles : list N → bool) (style_name : list N)
  : option (list N) :=
  if styles style_name then Some style_name else None.

(** The level-2 headings of a document, in order. *)
Definition heading_text (op : doc_op) : option (list N) :=
  match op with heading t 2 => Some t | _ => None end.

Definition headings (ops : list doc_op) : list (list N) := omap heading_text ops.

(** The heading of the annex. *)
Definition ANNEX : list N := py "Código-Fonte (Anexo)".

(** The condition of the last [if] of the assembly. *)
Definition fallback_fires (sections : gmap (list N) (list N))
    (code_from_md : option (list N)) : bool :=
  match sections !! EXEMPLO with
  | Some content =>
      negb (truthy_opt (extract_fenced_code content)) && truthy_opt code_from_md
  | None => false
  end.

(** * Properties *)

(** ** Strings *)

(** The literals of the statements below are code points. *)
Example py_literal :
  py "Saídas:\n\t- ç" = [83; 97; 237; 100; 97; 115; 58; 10; 9; 45; 32; 231]
  ∧ py "•" = [8226] ∧ py "\r\\" = [13; 92].
Proof. split_and!; reflexivity. Qed.

Section StringFacts.
Implicit Types (p : N → bool) (s a b pat : list N) (c : N).

Lemma lstrip_with_suffix p s :
  ∃ a, s = a ++ lstrip_with p s ∧ Forall (λ c, p c = true) a.
Proof.
  induction s as [|c s IH]; simpl.
  - by exists [].
  - destruct (p c) eqn:Hc.
    + destruct IH as (a & Hs & Ha). exists (c :: a). split.
      * simpl. by f_equal.
      * by constructor.
    + by exists [].
Qed.

Lemma lstrip_with_head p s c :
  head (lstrip_with p s) = Some c → p c = false.
Proof.
  induction s as [|d s IH]; simpl; [done|].
  destruct (p d) eqn:Hd; [done|]. simpl. by intros [= <-].
Qed.

Lemma lstrip_with_all p a s :
  Forall (λ c, p c = true) a → lstrip_with p (a ++ s) = lstrip_with p s.
Proof. induction 1 as [|c a Hc _ IH]; simpl; [done|]. by rewrite Hc. Qed.

Lemma lstrip_with_keep p a s :
  Exists (λ c, p c = false) a → lstrip_with p (a ++ s) = lstrip_with p a ++ s.
Proof.
  induction a as [|c a IH]; intros Ha; [by inversion Ha|]. simpl.
  destruct (p c) eqn:Hc; [|done].
  apply IH. inversion Ha; subst; [congruence|done].
Qed.

Lemma lstrip_with_idemp p s : lstrip_with p (lstrip_with p s) = lstrip_with p s.
Proof.
  pose proof (lstrip_with_head p s) as Hhead.
  destruct (lstrip_with p s) as [|c s']; [done|]. simpl.
  by rewrite (Hhead c eq_refl).
Qed.

Lemma rstrip_with_prefix p s :
  ∃ b, s = rstrip_with p s ++ b ∧ Forall (λ c, p c = true) b.
Proof.
  unfold rstrip_with. destruct (lstrip_with_suffix p (reverse s)) as (a & Hs & Ha).
  exists (reverse a). split.
  - rewrite <- reverse_app, <- Hs. by rewrite reverse_involutive.
  - by apply Forall_reverse.
Qed.

Lemma rstrip_with_last p s c :
  last (rstrip_with p s) = Some c → p c = false.
Proof.
  unfold rstrip_with. rewrite last_reverse.
  apply lstrip_with_head.
Qed.

Lemma rstrip_with_keep p a s :
  Exists (λ c, p c = false) s → rstrip_with p (a ++ s) = a ++ rstrip_with p s.
Proof.
  intros Hs. unfold rstrip_with. rewrite reverse_app.
  rewrite lstrip_with_keep.
  - by rewrite reverse_app, reverse_involutive.
  - apply Exists_exists in Hs as (c & Hc & Hp). apply Exists_exists.
    exists c. by rewrite elem_of_reverse.
Qed.

Lemma rstrip_with_all p a b :
  Forall (λ c, p c = true) b → rstrip_with p (a ++ b) = rstrip_with p a.
Proof.
  intros Hb. unfold rstrip_with. rewrite reverse_app, lstrip_with_all; [done|].
  by apply Forall_reverse.
Qed.

(** [s.rstrip(NL)] takes newlines, and nothing else, off the end. *)
Lemma rstrip_nl_spec s :
  ∃ n, s = rstrip_with (N.eqb NL) s ++ replicate n NL
       ∧ last (rstrip_with (N.eqb NL) s) ≠ Some NL.
Proof.
  destruct (rstrip_with_prefix (N.eqb NL) s) as (b & Hs & Hb).
  exists (length b). split.
  - rewrite Hs at 1. f_equal. clear Hs.
    induction Hb as [|c b Hc _ IH]; simpl; [done|].
    apply N.eqb_eq in Hc as <-. by f_equal.
  - intros Hl%rstrip_with_last. done.
Qed.

(** A text is a run of whitespace, its [strip], and a run of whitespace. *)
Lemma strip_infix s :
  ∃ a b, s = a ++ strip s ++ b
         ∧ Forall (λ c, is_space c = true) a
         ∧ Forall (λ c, is_space c = true) b.
Proof.
  unfold strip.
  destruct (lstrip_with_suffix is_space s) as (a & Hs & Ha).
  destruct (rstrip_with_prefix is_space (lstrip_with is_space s))
    as (b & Hb & Hb').
  exists a, b. split_and!; [|done..]. by rewrite <- Hb.
Qed.

Lemma strip_Forall (P : N → Prop) s : Forall P s → Forall P (strip s).
Proof.
  destruct (strip_infix s) as (a & b & Hs & _). intros H.
  rewrite Hs in H. apply Forall_app in H as [_ H].
  by apply Forall_app in H as [H _].
Qed.

Lemma strip_last s c : last (strip s) = Some c → is_space c = false.
Proof. apply rstrip_with_last. Qed.

Lemma strip_head s c : head (strip s) = Some c → is_space c = false.
Proof.
  unfold strip. intros Hc.
  destruct (rstrip_with_prefix is_space (lstrip_with is_space s))
    as (b & Hb & _).
  apply (lstrip_with_head is_space s). rewrite Hb.
  destruct (rstrip_with is_space (lstrip_with is_space s)); [done|].
  exact Hc.
Qed.

Lemma strip_trimmed s : trimmed (strip s).
Proof. split; intros c; [apply strip_head | apply strip_last]. Qed.

Lemma strip_lstrip s : strip (lstrip_with is_space s) = strip s.
Proof. unfold strip. by rewrite lstrip_with_idemp. Qed.

Lemma strip_app_space a s :
  Forall (λ c, is_space c = true) a → strip (a ++ s) = strip s.
Proof. intros Ha. unfold strip. by rewrite lstrip_with_all. Qed.

(** A text with a character that is not whitespace is not blank. *)
Lemma strip_truthy s :
  Exists (λ c, is_space c = false) s → truthy (strip s) = true.
Proof.
  intros Hs. destruct (strip_infix s) as (a & b & Heq & Ha & Hb).
  destruct (strip s) as [|c t]; [|done]. exfalso.
  rewrite Heq in Hs. apply Exists_app in Hs as [Hs|Hs].
  - apply Exists_exists in Hs as (c & Hc & Hsp).
    rewrite Forall_forall in Ha. specialize (Ha c Hc). congruence.
  - simpl in Hs. apply Exists_exists in Hs as (c & Hc & Hsp).
    rewrite Forall_forall in Hb. specialize (Hb c Hc). congruence.
Qed.

Lemma str_or_nil a : str_or a [] = a.
Proof. by destruct a. Qed.

Lemma startswith_app pat s : startswith pat (pat ++ s) = true.
Proof. induction pat as [|c pat IH]; simpl; [done|]. by rewrite N.eqb_refl. Qed.

Lemma startswith_prefix pat s :
  startswith pat s = true → ∃ b, s = pat ++ b.
Proof.
  revert s. induction pat as [|c pat IH]; intros s; simpl.
  - by exists s.
  - destruct s as [|d s]; [done|]. intros [Hc Hp]%andb_prop.
    apply N.eqb_eq in Hc as ->. destruct (IH _ Hp) as [b ->]. by exists b.
Qed.

(** [startswith] looks at the first [length pat] characters only. *)
Lemma startswith_app_l pat a b :
  (length pat ≤ length a)%nat → startswith pat (a ++ b) = startswith pat a.
Proof.
  revert a. induction pat as [|c pat IH]; intros a Hlen; simpl; [done|].
  destruct a as [|d a]; simpl in *; [lia|].
  rewrite IH; [done|lia].
Qed.

Lemma find_unfold pat s :
  find pat s =
    if startswith pat s then Some 0%nat
    else match s with
         | [] => None
         | _ :: s' => S <$> find pat s'
         end.
Proof. by destruct s. Qed.

(** When the first occurrence of [pat] in [a ++ pat] is the one at the
    end, [pat] occurs nowhere earlier. *)
Lemma find_first pat a :
  find pat (a ++ pat) = Some (length a) →
  ∀ a1 a2, a = a1 ++ a2 → a2 ≠ [] → startswith pat (a2 ++ pat) = false.
Proof.
  intros Hfind a1. revert a Hfind.
  induction a1 as [|c a1 IH]; intros a Hfind a2 -> Ha2.
  - destruct a2 as [|c a2]; [done|].
    rewrite app_nil_l, find_unfold in Hfind.
    by destruct (startswith pat ((c :: a2) ++ pat)).
  - apply (IH (a1 ++ a2)); [|done..].
    rewrite <- !app_comm_cons, find_unfold in Hfind.
    destruct (startswith pat (c :: (a1 ++ a2) ++ pat)); [done|].
    destruct (find pat ((a1 ++ a2) ++ pat)); simpl in *; congruence.
Qed.

Lemma contains_cons pat c s : contains pat s = true → contains pat (c :: s) = true.
Proof.
  unfold contains. rewrite (find_unfold pat (c :: s)).
  destruct (startswith pat (c :: s)); [done|]. by destruct (find pat s).
Qed.

Lemma contains_app pat a b : contains pat (a ++ pat ++ b) = true.
Proof.
  induction a as [|c a IH].
  - unfold contains. by rewrite app_nil_l, find_unfold, startswith_app.
  - by apply contains_cons.
Qed.

Lemma split_nl_cons c s :
  split_nl (c :: s) =
    if c =? NL then [] :: split_nl s
    else match split_nl s with
         | l :: ls => (c :: l) :: ls
         | [] => [[c]]
         end.
Proof. done. Qed.

Lemma split_nl_app a b : split_nl (a ++ NL :: b) = split_nl a ++ split_nl b.
Proof.
  induction a as [|c a IH]; simpl; [done|].
  destruct (c =? NL); [by rewrite IH|]. rewrite IH.
  destruct (split_nl a) as [|l ls] eqn:Ha; [|done].
  by destruct a as [|d a]; simpl in Ha; [|destruct (d =? NL), (split_nl a)].
Qed.

Lemma existsb_Exists {X} (f : X → bool) (l : list X) :
  existsb f l = true → Exists (λ x, f x = true) l.
Proof.
  induction l as [|x l IH]; simpl; [done|].
  destruct (f x) eqn:Hx; [by left|]. intros H. right. by apply IH.
Qed.

Lemma existsb_Forall {X} (f : X → bool) (l : list X) :
  existsb f l = false → Forall (λ x, f x = false) l.
Proof.
  induction l as [|x l IH]; simpl; [done|].
  destruct (f x) eqn:Hx; [done|]. intros H. constructor; [done|by apply IH].
Qed.

End StringFacts.

(** ** The matcher *)

Section MatcherFacts.
Context {A : Type}.
Implicit Types (p : N → bool) (s a : list N) (k : list N → option A).

(** *** Whatever the matcher returns comes from a match *)

Lemma star_sound p s k x :
  star p s k = Some x →
  ∃ a s', s = a ++ s' ∧ Forall (λ c, p c = true) a ∧ k s' = Some x.
Proof.
  induction s as [|c s IH]; simpl.
  - intros Hk. by exists [], [].
  - destruct (p c) eqn:Hc.
    + destruct (star p s k) as [y|] eqn:Hs.
      * intros [= ->]. destruct (IH eq_refl) as (a & s' & -> & Ha & Hk).
        exists (c :: a), s'. split_and!; [done| by constructor | done].
      * intros Hk. by exists [], (c :: s).
    + intros Hk. by exists [], (c :: s).
Qed.

Lemma star_lazy_sound p s k x :
  star_lazy p s k = Some x →
  ∃ a s', s = a ++ s' ∧ Forall (λ c, p c = true) a ∧ k s' = Some x.
Proof.
  induction s as [|c s IH]; simpl.
  - destruct (k []) eqn:Hk; [|done]. intros [= ->]. by exists [], [].
  - destruct (k (c :: s)) eqn:Hk.
    + intros [= ->]. by exists [], (c :: s).
    + destruct (p c) eqn:Hc; [|done]. intros Hs.
      destruct (IH Hs) as (a & s' & -> & Ha & Hk').
      exists (c :: a), s'. split_and!; [done| by constructor | done].
Qed.

Lemma rep_sound q p s k x :
  rep q p s k = Some x →
  ∃ a s', s = a ++ s' ∧ Forall (λ c, p c = true) a
          ∧ (q = Plus → a ≠ []) ∧ (q = Opt → (length a ≤ 1)%nat)
          ∧ k s' = Some x.
Proof.
  destruct q; simpl.
  - destruct s as [|c s].
    + intros Hk. exists [], []. by split_and!; simpl; try lia.
    + destruct (p c) eqn:Hc.
      * destruct (k s) eqn:Hk.
        -- intros [= ->]. exists [c], s.
           split_and!; simpl; [done|by repeat constructor|done|lia|done].
        -- intros Hk'. exists [], (c :: s). by split_and!; simpl; try lia.
      * intros Hk'. exists [], (c :: s). by split_and!; simpl; try lia.
  - intros (a & s' & -> & Ha & Hk)%star_sound. exists a, s'. by split_and!.
  - destruct s as [|c s]; [done|]. destruct (p c) eqn:Hc; [|done].
    intros (a & s' & -> & Ha & Hk)%star_sound. exists (c :: a), s'.
    split_and!; [done|by constructor|done|done|done].
  - intros (a & s' & -> & Ha & Hk)%star_lazy_sound. exists a, s'.
    by split_and!.
Qed.

Lemma captured_app a s : captured (a ++ s) s = a.
Proof.
  unfold captured. rewrite length_app.
  replace (length a + length s - length s)%nat with (length a) by lia.
  by rewrite take_app_length.
Qed.

Lemma captured_all s : captured s [] = s.
Proof. unfold captured. simpl. rewrite Nat.sub_0_r. apply firstn_all. Qed.

Lemma run_sound r s g (k : list N → gmap nat (list N) → option A) x :
  run r s g k = Some x →
  ∃ a s' g', s = a ++ s' ∧ matches r a g g' ∧ k s' g' = Some x.
Proof.
  revert s g k. induction r as [|p|q p|r1 IH1 r2 IH2|n r IH]; intros s g k; simpl.
  - intros Hk. exists [], s, g. split_and!; [done|constructor|done].
  - destruct s as [|c s]; [done|]. destruct (p c) eqn:Hc; [|done].
    intros Hk. exists [c], s, g. split_and!; [done|by constructor|done].
  - intros (a & s' & -> & Ha & Hplus & Hopt & Hk)%rep_sound.
    exists a, s', g. split_and!; [done|by constructor|done].
  - intros (a1 & s1 & g1 & -> & H1 & Hk1)%IH1.
    apply IH2 in Hk1 as (a2 & s2 & g2 & -> & H2 & Hk2).
    exists (a1 ++ a2), s2, g2. split_and!; [by rewrite app_assoc| |done].
    by econstructor.
  - intros (a & s' & g' & -> & H & Hk)%IH. rewrite captured_app in Hk.
    exists a, s', (<[n := a]> g'). split_and!; [done|by constructor|done].
Qed.

(** *** What the matcher returns, for the shapes the patterns have *)

Lemma run_cat r1 r2 s g (k : list N → gmap nat (list N) → option A) :
  run (r1 >> r2) s g k = run r1 s g (λ s1 g1, run r2 s1 g1 k).
Proof. done. Qed.

Lemma run_lit pat s g (k : list N → gmap nat (list N) → option A) :
  run (lit pat) s g k =
    if startswith pat s then k (drop (length pat) s) g else None.
Proof.
  revert s. induction pat as [|c pat IH]; intros s; simpl; [done|].
  destruct s as [|d s]; [done|]. destruct (c =? d); simpl; [apply IH|done].
Qed.

(** A greedy run that must be followed by a character outside the set
    stops at the first such character. *)
Lemma star_stop p a c s k :
  Forall (λ d, p d = true) a → p c = false →
  (∀ d s', p d = true → k (d :: s') = None) →
  star p (a ++ c :: s) k = k (c :: s).
Proof.
  intros Ha Hc Hk. induction Ha as [|d a Hd _ IH]; simpl.
  - by rewrite Hc.
  - rewrite Hd, IH. destruct (k (c :: s)); [done|]. by apply Hk.
Qed.

(** A greedy run over a text of the set, when the rest of the pattern
    matches at the end of the text, takes all of it. *)
Lemma star_all p s k :
  Forall (λ c, p c = true) s → is_Some (k []) → star p s k = k [].
Proof.
  intros Hs [x Hx]. induction Hs as [|c s Hc _ IH]; simpl; [done|].
  by rewrite Hc, IH, Hx.
Qed.

(** A greedy run before a rest of the pattern that matches anywhere takes
    the longest run there is. *)
Lemma star_lstrip p s k :
  (∀ s', is_Some (k s')) → star p s k = k (lstrip_with p s).
Proof.
  intros Hk. induction s as [|c s IH]; simpl; [done|].
  destruct (p c); [|done]. rewrite IH.
  by destruct (Hk (lstrip_with p s)) as [x ->].
Qed.

(** A lazy run ends at the first place where the rest of the pattern
    matches. *)
Lemma star_lazy_first p a s k x :
  Forall (λ d, p d = true) a →
  (∀ a1 a2, a = a1 ++ a2 → a2 ≠ [] → k (a2 ++ s) = None) →
  k s = Some x →
  star_lazy p (a ++ s) k = Some x.
Proof.
  intros Ha. induction Ha as [|d a Hd _ IH]; intros Hfail Hk.
  - simpl. destruct s; simpl; by rewrite Hk.
  - assert (k (d :: a ++ s) = None) as Hhere by by apply (Hfail [] (d :: a)).
    simpl. rewrite Hhere, Hd.
    apply IH; [|done]. intros a1 a2 -> Ha2. by apply (Hfail (d :: a1) a2).
Qed.

End MatcherFacts.

Lemma matches_min_len r a g g' : matches r a g g' → (min_len r ≤ length a)%nat.
Proof.
  induction 1 as [|p c g Hc|q p a g Ha Hplus Hopt| |]; simpl; try lia.
  - destruct q; try lia. destruct a; [by destruct Hplus|simpl; lia].
  - rewrite length_app. lia.
Qed.

(** A match sets groups and never unsets one. *)
Lemma matches_groups_mono r a g g' n :
  matches r a g g' → is_Some (g !! n) → is_Some (g' !! n).
Proof.
  induction 1 as [| | | |m r a g g' _ IH]; auto. intros Hn.
  destruct (decide (m = n)) as [->|Hne].
  - rewrite lookup_insert_eq. by eexists.
  - rewrite lookup_insert_ne by done. auto.
Qed.

Lemma matches_groups r a g g' n :
  matches r a g g' → n ∈ groups_of r → is_Some (g' !! n).
Proof.
  induction 1 as [| | |r1 r2 a1 a2 g g1 g2 _ IH1 H2 IH2|m r a g g' _ IH];
    simpl; try (by intros ?%elem_of_nil).
  - intros [Hn|Hn]%elem_of_app; [|by apply IH2].
    eapply matches_groups_mono; [done|]. by apply IH1.
  - intros [->|Hn]%elem_of_cons; [rewrite lookup_insert_eq; by eexists|].
    destruct (decide (m = n)) as [->|Hne].
    + rewrite lookup_insert_eq. by eexists.
    + rewrite lookup_insert_ne by done. by apply IH.
Qed.

Lemma re_match_sound r s m :
  re_match r s = Some m →
  ∃ a, s = a ++ m_rest m ∧ matches r a ∅ (m_groups m).
Proof.
  unfold re_match. intros (a & s' & g' & -> & H & [= <-])%run_sound.
  by exists a.
Qed.

(** In a match, [m.group(n)] is a [str] for every group [n] of the
    pattern. *)
Lemma re_match_groups r s m n :
  re_match r s = Some m → n ∈ groups_of r → is_Some (group m n).
Proof.
  intros (a & _ & H)%re_match_sound. by apply (matches_groups r a ∅).
Qed.

Lemma re_search_sound r s m :
  re_search r s = Some m →
  ∃ pre a, s = pre ++ a ++ m_rest m ∧ matches r a ∅ (m_groups m).
Proof.
  induction s as [|c s IH]; simpl.
  - destruct (re_match r []) as [m'|] eqn:Hm; [|done]. intros [= ->].
    apply re_match_sound in Hm as (a & Hs & H). by exists [], a.
  - destruct (re_match r (c :: s)) as [m'|] eqn:Hm.
    + intros [= ->]. apply re_match_sound in Hm as (a & Hs & H).
      by exists [], a.
    + intros (pre & a & -> & H)%IH. by exists (c :: pre), a.
Qed.

Lemma re_search_here r s m : re_match r s = Some m → re_search r s = Some m.
Proof. intros Hm. destruct s; simpl; by rewrite Hm. Qed.

(** [re.search] passes the positions where the pattern does not match. *)
Lemma re_search_skip r pre s :
  (∀ p1 p2, pre = p1 ++ p2 → p2 ≠ [] → re_match r (p2 ++ s) = None) →
  re_search r (pre ++ s) = re_search r s.
Proof.
  induction pre as [|c pre IH]; intros Hfail; [done|].
  assert (re_match r (c :: pre ++ s) = None) as Hhere
    by by apply (Hfail [] (c :: pre)).
  simpl. rewrite Hhere.
  apply IH. intros p1 p2 -> Hp2. by apply (Hfail (c :: p1) p2).
Qed.

(** ** The patterns of the script *)

Ltac inv_matches :=
  repeat match goal with
    | H : matches (_ >> _) _ _ _ |- _ => inversion H; clear H; subst
    | H : matches (Grp _ _) _ _ _ |- _ => inversion H; clear H; subst
    | H : matches (Chr _) _ _ _ |- _ => inversion H; clear H; subst
    | H : matches (Rep _ _) _ _ _ |- _ => inversion H; clear H; subst
    | H : matches Eps _ _ _ |- _ => inversion H; clear H; subst
    | H : (_ =? _) = true |- _ => apply N.eqb_eq in H; subst
    end.

Lemma FENCE_eq : FENCE = [BACKTICK; BACKTICK; BACKTICK].
Proof. reflexivity. Qed.

Lemma MARKER_eq : MARKER = [35; 35; 35].
Proof. reflexivity. Qed.

Lemma DASH_eq : DASH = [45; 32].
Proof. reflexivity. Qed.

Lemma Forall_any s : Forall (λ c, any c = true) s.
Proof. by apply Forall_forall. Qed.

(** *** What each pattern matches *)

Lemma heading_re_inv a g :
  matches heading_re a ∅ g → ∃ nl ws, a = nl ++ MARKER ++ ws.
Proof.
  unfold heading_re. rewrite MARKER_eq. simpl lit. intros H. inv_matches.
  by eexists _, _.
Qed.

Lemma strict_re_inv a g :
  matches strict_re a ∅ g →
  ∃ title ws rest,
    a = title ++ COLON :: ws ++ NL :: rest
    ∧ title ≠ [] ∧ Forall (λ c, not_colon_nl c = true) title
    ∧ Forall (λ c, is_space c = true) ws
    ∧ g !! 1%nat = Some title ∧ g !! 2%nat = Some rest.
Proof.
  unfold strict_re. intros H. inv_matches.
  eexists _, _, _. split_and!; [|auto|eassumption|eassumption|..].
  - simpl. reflexivity.
  - by rewrite lookup_insert_ne, lookup_insert_eq.
  - by rewrite lookup_insert_eq.
Qed.

Lemma single_re_inv a g :
  matches single_re a ∅ g →
  ∃ title ws rest,
    a = title ++ COLON :: ws ++ rest
    ∧ title ≠ [] ∧ Forall (λ c, not_colon_nl c = true) title
    ∧ Forall (λ c, is_space c = true) ws
    ∧ g !! 1%nat = Some title ∧ g !! 2%nat = Some rest.
Proof.
  unfold single_re. intros H. inv_matches.
  eexists _, _, _. split_and!; [|auto|eassumption|eassumption|..].
  - simpl. reflexivity.
  - by rewrite lookup_insert_ne, lookup_insert_eq.
  - by rewrite lookup_insert_eq.
Qed.

Lemma fence_re_inv a g :
  matches fence_re a ∅ g →
  ∃ tag body,
    a = FENCE ++ tag ++ NL :: body ++ FENCE
    ∧ Forall (λ c, not_nl c = true) tag
    ∧ g !! 1%nat = Some body.
Proof.
  unfold fence_re. rewrite !FENCE_eq. simpl lit. intros H. inv_matches.
  eexists _, _. split_and!; [|eassumption|..].
  - simpl. reflexivity.
  - by rewrite lookup_insert_eq.
Qed.

(** *** The loop of [re.split] *)

(** A match of the heading pattern is never empty, so the loop of
    [re.split] ends before its fuel does: any fuel above the length of the
    text gives the same pieces. *)
Lemma heading_re_progress s m :
  re_match heading_re s = Some m → (length (m_rest m) < length s)%nat.
Proof.
  intros (a & -> & H)%re_match_sound. apply matches_min_len in H.
  assert (min_len heading_re = 4%nat) as Hlen by (vm_compute; reflexivity).
  rewrite length_app. rewrite Hlen in H. lia.
Qed.

Lemma split_loop_S n r cur s :
  split_loop (S n) r cur s =
    match re_match r s with
    | Some m => reverse cur :: split_loop n r [] (m_rest m)
    | None =>
        match s with
        | [] => [reverse cur]
        | c :: s' => split_loop n r (c :: cur) s'
        end
    end.
Proof. done. Qed.

Lemma split_loop_fuel n1 n2 cur s :
  (length s < n1)%nat → (length s < n2)%nat →
  split_loop n1 heading_re cur s = split_loop n2 heading_re cur s.
Proof.
  revert n2 cur s. induction n1 as [|n1 IH]; intros n2 cur s H1 H2; [lia|].
  destruct n2 as [|n2]; [lia|]. rewrite !split_loop_S.
  destruct (re_match heading_re s) as [m|] eqn:Hm.
  - apply heading_re_progress in Hm. f_equal. apply IH; lia.
  - destruct s as [|c s]; [done|]. simpl in *. apply IH; lia.
Qed.

Lemma re_split_fuel n s :
  (length s < n)%nat → split_loop n heading_re [] s = re_split heading_re s.
Proof. intros Hn. apply split_loop_fuel; [done|lia]. Qed.

Lemma heading_re_marker s :
  contains MARKER s = false → re_match heading_re s = None.
Proof.
  intros Hs. destruct (re_match heading_re s) as [m|] eqn:Hm; [|done].
  apply re_match_sound in Hm as (a & -> & H).
  apply heading_re_inv in H as (nl & ws & ->).
  by rewrite <- !app_assoc, contains_app in Hs.
Qed.

(** A text without the marker is one chunk. *)
Lemma split_loop_no_marker n cur s :
  (length s < n)%nat → contains MARKER s = false →
  split_loop n heading_re cur s = [reverse cur ++ s].
Proof.
  revert n cur. induction s as [|c s IH]; intros n cur Hn Hs.
  - destruct n as [|n]; [simpl in Hn; lia|].
    by rewrite split_loop_S, heading_re_marker, app_nil_r.
  - destruct n as [|n]; [simpl in Hn; lia|].
    rewrite split_loop_S, heading_re_marker by done. rewrite IH.
    + by rewrite reverse_cons, <- app_assoc.
    + simpl in Hn. lia.
    + destruct (contains MARKER s) eqn:Hs'; [|done].
      by rewrite (contains_cons _ c _ Hs') in Hs.
Qed.

Lemma chunks_no_marker md_text :
  contains MARKER (replace_crlf md_text) = false →
  chunks md_text = [replace_crlf md_text].
Proof.
  intros Hs. unfold chunks, re_split.
  rewrite split_loop_no_marker; [done|lia|done].
Qed.

(** *** The two patterns of a section, on a chunk with a title *)

Lemma run_title r title rest
    (k : list N → gmap nat (list N) → option match_obj) :
  title ≠ [] → Forall (λ c, not_colon_nl c = true) title →
  run (Grp 1 (Rep Plus not_colon_nl) >> Chr (N.eqb COLON) >> r)
      (title ++ COLON :: rest) ∅ k
  = run r rest {[ 1%nat := title ]} k.
Proof.
  intros Hne Htitle. cbn [run rep].
  destruct title as [|c title]; [done|].
  inversion Htitle as [|? ? Hc Ht]; subst.
  rewrite <- app_comm_cons, Hc. rewrite star_stop; [|done|done|].
  - rewrite N.eqb_refl.
    by rewrite app_comm_cons, captured_app, insert_empty.
  - intros d s' Hd.
    unfold not_colon_nl in Hd. apply andb_prop in Hd as [Hd _].
    rewrite N.eqb_sym. by destruct (d =? COLON).
Qed.

(** The second pattern matches every such chunk; its second group is what
    follows the colon, less the whitespace at its head. *)
Lemma single_re_match title rest :
  title ≠ [] → Forall (λ c, not_colon_nl c = true) title →
  re_match single_re (title ++ COLON :: rest)
  = Some (Match [] (<[2%nat := lstrip_with is_space rest]> {[ 1%nat := title ]})).
Proof.
  intros Hne Htitle. unfold re_match, single_re. rewrite run_title by done.
  cbn [run rep]. rewrite star_lstrip.
  - rewrite star_all; [|apply Forall_any|by eexists].
    by rewrite captured_all.
  - intros s'. rewrite star_all; [by eexists|apply Forall_any|by eexists].
Qed.

(** When the first pattern matches such a chunk, its second group is what
    follows a newline that only whitespace parts from the colon. *)
Lemma strict_re_match title rest m :
  title ≠ [] → Forall (λ c, not_colon_nl c = true) title →
  re_match strict_re (title ++ COLON :: rest) = Some m →
  ∃ ws rest',
    rest = ws ++ NL :: rest' ∧ Forall (λ c, is_space c = true) ws
    ∧ m = Match [] (<[2%nat := rest']> {[ 1%nat := title ]}).
Proof.
  intros Hne Htitle. unfold re_match, strict_re. rewrite run_title by done.
  cbn [run rep].
  intros (ws & s' & -> & Hws & Hk)%star_sound.
  destruct s' as [|c rest']; [done|]. destruct (NL =? c) eqn:Hc; [|done].
  apply N.eqb_eq in Hc as <-.
  rewrite star_all in Hk; [|apply Forall_any|by eexists].
  injection Hk as <-. exists ws, rest'. split_and!; [done..|].
  by rewrite captured_all.
Qed.

(** *** The pattern of a fenced block *)

Lemma fence_re_no_fence s :
  startswith FENCE s = false → re_match fence_re s = None.
Proof.
  intros Hs. unfold re_match, fence_re. by rewrite run_cat, run_lit, Hs.
Qed.

(** The match at an opening marker: the rest of its line is skipped, and
    the group runs up to the first closing marker after it. *)
Lemma fence_re_match tag body rest :
  Forall (λ c, not_nl c = true) tag →
  find FENCE (body ++ FENCE) = Some (length body) →
  re_match fence_re (FENCE ++ tag ++ NL :: body ++ FENCE ++ rest)
    = Some (Match rest {[ 1%nat := body ]}).
Proof.
  intros Htag Hbody. unfold re_match, fence_re.
  rewrite run_cat, run_lit, startswith_app, drop_app_length.
  cbn [run rep]. rewrite star_stop; [|done|done|].
  2:{ intros d s' Hd. unfold not_nl in Hd.
      rewrite N.eqb_sym. by destruct (d =? NL). }
  rewrite N.eqb_refl.
  erewrite star_lazy_first; [done|apply Forall_any| |].
  - intros a1 a2 -> Ha2. rewrite run_lit.
    rewrite app_assoc, startswith_app_l.
    + by rewrite (find_first _ _ Hbody a1 a2).
    + rewrite length_app. simpl. lia.
  - rewrite run_lit, startswith_app, drop_app_length.
    by rewrite captured_app, insert_empty.
Qed.

(** ** [split_sections] *)

Lemma add_chunk_entry sections ch :
  add_chunk sections ch =
    match chunk_entry ch with
    | Some (key, val) => <[key := val]> sections
    | None => sections
    end.
Proof.
  unfold add_chunk, chunk_entry.
  destruct (negb (truthy (strip ch))); [done|].
  by destruct (match_chunk ch).
Qed.

(** A chunk that starts with a title and a colon gives an entry, by the
    first pattern or by the second: the title and what follows the colon,
    both stripped. *)
Lemma chunk_entry_colon title rest :
  title ≠ [] → Forall (λ c, not_colon_nl c = true) title →
  chunk_entry (title ++ COLON :: rest) = Some (strip title, strip rest).
Proof.
  intros Hne Htitle. unfold chunk_entry.
  rewrite strip_truthy.
  2:{ apply Exists_app. right. by left. }
  cbn [negb]. unfold match_chunk.
  destruct (re_match strict_re (title ++ COLON :: rest)) as [m|] eqn:Hm.
  - apply strict_re_match in Hm as (ws & rest' & -> & Hws & ->); [|done..].
    unfold group_str, group. cbn [m_groups].
    rewrite lookup_insert_ne, lookup_singleton_eq, lookup_insert_eq by done.
    cbn [default from_option id]. rewrite str_or_nil. do 2 f_equal.
    change (ws ++ NL :: rest') with (ws ++ [NL] ++ rest').
    rewrite app_assoc. symmetry. apply strip_app_space.
    apply Forall_app. split; [done|]. by repeat constructor.
  - rewrite single_re_match by done.
    unfold group_str, group. cbn [m_groups].
    rewrite lookup_insert_ne, lookup_singleton_eq, lookup_insert_eq by done.
    cbn [default from_option id]. by rewrite str_or_nil, strip_lstrip.
Qed.

Lemma match_chunk_title ch m :
  match_chunk ch = Some m →
  ∃ title rest,
    ch = title ++ COLON :: rest
    ∧ title ≠ [] ∧ Forall (λ c, not_colon_nl c = true) title.
Proof.
  unfold match_chunk.
  destruct (re_match strict_re ch) as [m'|] eqn:Hstrict.
  - intros _. apply re_match_sound in Hstrict as (a & -> & H).
    apply strict_re_inv in H as (title & ws & rest & -> & Hne & Ht & _).
    exists title, ((ws ++ NL :: rest) ++ m_rest m').
    split_and!; [|done..]. by rewrite <- app_assoc.
  - intros (a & -> & H)%re_match_sound.
    apply single_re_inv in H as (title & ws & rest & -> & Hne & Ht & _).
    exists title, ((ws ++ rest) ++ m_rest m).
    split_and!; [|done..]. by rewrite <- app_assoc.
Qed.

(** Only such chunks give an entry. *)
Lemma chunk_entry_inv ch key val :
  chunk_entry ch = Some (key, val) →
  ∃ title rest,
    ch = title ++ COLON :: rest
    ∧ title ≠ [] ∧ Forall (λ c, not_colon_nl c = true) title
    ∧ key = strip title ∧ val = strip rest.
Proof.
  intros Hch.
  assert (∃ m, match_chunk ch = Some m) as [m Hm].
  { unfold chunk_entry in Hch. destruct (negb (truthy (strip ch))); [done|].
    destruct (match_chunk ch) as [m|]; [by exists m|done]. }
  apply match_chunk_title in Hm as (title & rest & -> & Hne & Ht).
  rewrite chunk_entry_colon in Hch by done. injection Hch as <- <-.
  by exists title, rest.
Qed.

Lemma chunk_entry_shape ch key val :
  chunk_entry ch = Some (key, val) →
  Forall (λ c, c ≠ COLON ∧ c ≠ NL) key ∧ trimmed key ∧ trimmed val.
Proof.
  intros (title & rest & _ & _ & Ht & -> & ->)%chunk_entry_inv.
  split_and!; [|apply strip_trimmed..].
  apply strip_Forall. eapply Forall_impl; [done|].
  intros c. unfold not_colon_nl.
  intros [Hc Hn]%andb_prop. apply negb_true_iff, N.eqb_neq in Hc, Hn.
  done.
Qed.

Lemma foldl_add_chunk_Forall (P : list N → list N → Prop) chs sections :
  (∀ ch key val, chunk_entry ch = Some (key, val) → P key val) →
  map_Forall P sections → map_Forall P (foldl add_chunk sections chs).
Proof.
  intros HP. revert sections.
  induction chs as [|ch chs IH]; intros sections Hs; simpl; [done|].
  apply IH. rewrite add_chunk_entry.
  destruct (chunk_entry ch) as [[key val]|] eqn:Hch; [|done].
  apply map_Forall_insert_2; [by eapply HP|done].
Qed.

Lemma foldl_add_chunk_other chs sections key :
  Forall (λ ch, ∀ val, chunk_entry ch ≠ Some (key, val)) chs →
  foldl add_chunk sections chs !! key = sections !! key.
Proof.
  intros Hchs. revert sections.
  induction Hchs as [|ch chs Hch _ IH]; intros sections; simpl; [done|].
  rewrite IH, add_chunk_entry.
  destruct (chunk_entry ch) as [[key' val']|] eqn:Hch'; [|done].
  apply lookup_insert_ne. intros ->. by eapply Hch.
Qed.

(** A text without the marker is handled as one chunk: when it starts with
    a title and a colon, it gives a mapping with one entry. *)
Lemma split_sections_no_marker md_text :
  contains MARKER (replace_crlf md_text) = false →
  split_sections md_text =
    match chunk_entry (replace_crlf md_text) with
    | Some (key, val) => {[ key := val ]}
    | None => ∅
    end.
Proof.
  intros Hs. unfold split_sections. rewrite chunks_no_marker by done.
  simpl. rewrite add_chunk_entry.
  destruct (chunk_entry (replace_crlf md_text)) as [[key val]|]; [|done].
  apply insert_empty.
Qed.

Lemma split_sections_no_marker_title md_text title rest :
  contains MARKER (replace_crlf md_text) = false →
  replace_crlf md_text = title ++ COLON :: rest →
  title ≠ [] → Forall (λ c, not_colon_nl c = true) title →
  split_sections md_text = {[ strip title := strip rest ]}.
Proof.
  intros Hs Heq Hne Ht. rewrite split_sections_no_marker by done.
  by rewrite Heq, chunk_entry_colon.
Qed.

(** C4: [split_sections] accepts both forms of a section.  A chunk made of
    a title (not empty, without colon or newline), a colon and a content
    gives the entry of the stripped title and the stripped content, be the
    content on the lines after the colon or on the same line.  The text
    [### Título:\nHello\n### Descrição:\nWorld\n] gives the two chunks
    [Título:\nHello] and [Descrição:\nWorld\n], both matched by the first
    (multi-line) pattern, and the mapping Título -> Hello, Descrição ->
    World.  The text [### Título: Hello\n] gives the chunk
    [Título: Hello\n], which the first pattern does not match and the second
    (single-line) pattern does, and the mapping Título -> Hello. *)
Theorem split_sections_both_forms title content :
  (title ≠ [] → Forall (λ c, not_colon_nl c = true) title →
   chunk_entry (title ++ COLON :: NL :: content)
     = Some (strip title, strip content)
   ∧ chunk_entry (title ++ COLON :: content)
     = Some (strip title, strip content))
  ∧ chunks (py "### Título:\nHello\n### Descrição:\nWorld\n")
    = [ []; py "Título:\nHello"; py "Descrição:\nWorld\n" ]
  ∧ is_Some (re_match strict_re (py "Título:\nHello"))
  ∧ is_Some (re_match strict_re (py "Descrição:\nWorld\n"))
  ∧ split_sections (py "### Título:\nHello\n### Descrição:\nWorld\n")
    = {[ py "Título" := py "Hello"; py "Descrição" := py "World" ]}
  ∧ chunks (py "### Título: Hello\n") = [ []; py "Título: Hello\n" ]
  ∧ re_match strict_re (py "Título: Hello\n") = None
  ∧ is_Some (re_match single_re (py "Título: Hello\n"))
  ∧ split_sections (py "### Título: Hello\n")
    = {[ py "Título" := py "Hello" ]}.
Proof.
  split.
  - intros Hne Htitle. rewrite !chunk_entry_colon by done.
    split; reflexivity.
  - split_and!;
      first [vm_compute; reflexivity | vm_compute; by eexists].
Qed.

Lemma split_sections_both_forms_witness :
  chunk_entry (py "Saídas" ++ COLON :: NL :: py "  um arquivo .docx\n")
    = Some (py "Saídas", py "um arquivo .docx")
  ∧ chunk_entry (py "Saídas" ++ COLON :: py "  um arquivo .docx\n")
    = Some (py "Saídas", py "um arquivo .docx").
Proof.
  destruct (proj1 (split_sections_both_forms (py "Saídas")
                     (py "  um arquivo .docx\n"))) as [-> ->].
  - vm_compute; discriminate.
  - vm_compute. repeat constructor.
  - vm_compute. split; reflexivity.
Defined.

(** C1: a text without any [###] marker is one chunk, and [split_sections]
    matches it against the two section patterns like any other chunk: the
    text [Nota: rascunho] has no marker and yet gives the mapping
    Nota -> rascunho.  In the same way the preamble before the first
    heading adds an entry when its first line has a colon: the preamble
    [Segue a documentação:\n] of an answer adds an entry with an empty
    value. *)
Theorem split_sections_keeps_preamble :
  contains MARKER (py "Nota: rascunho") = false
  ∧ split_sections (py "Nota: rascunho") = {[ py "Nota" := py "rascunho" ]}
  ∧ chunks (py "Nota: rascunho\n### Título:\nHello")
    = [ py "Nota: rascunho"; py "Título:\nHello" ]
  ∧ split_sections (py "Nota: rascunho\n### Título:\nHello")
    = {[ py "Nota" := py "rascunho"; py "Título" := py "Hello" ]}
  ∧ split_sections (py "Segue a documentação:\n\n### Título:\nHello\n")
    = {[ py "Segue a documentação" := []; py "Título" := py "Hello" ]}.
Proof. split_and!; vm_compute; reflexivity. Qed.

(** C5: when a chunk of the text gives the entry [(key, val)] and no later
    chunk gives an entry for [key], [split_sections] maps [key] to [val],
    whatever the earlier chunks gave for that key: the last occurrence of a
    heading wins.  The keys of the mapping are pairwise distinct. *)
Theorem split_sections_last_write_wins md_text before ch after key val :
  chunks md_text = before ++ ch :: after →
  chunk_entry ch = Some (key, val) →
  Forall (λ ch', ∀ val', chunk_entry ch' ≠ Some (key, val')) after →
  split_sections md_text !! key = Some val
  ∧ NoDup (map_to_list (split_sections md_text)).*1.
Proof.
  intros Hchunks Hch Hafter. split; [|apply NoDup_fst_map_to_list].
  unfold split_sections. rewrite Hchunks, foldl_app. simpl.
  rewrite foldl_add_chunk_other by done.
  rewrite add_chunk_entry, Hch. apply lookup_insert_eq.
Qed.

Lemma split_sections_last_write_wins_witness :
  let md_text := py "### A:\nfirst\n### B:\nother\n### A:\nsecond\n### C: x" in
  chunk_entry (py "A:\nfirst") = Some (py "A", py "first")
  ∧ split_sections md_text !! py "A" = Some (py "second")
  ∧ NoDup (map_to_list (split_sections md_text)).*1.
Proof.
  intros md_text. split; [vm_compute; reflexivity|].
  apply (split_sections_last_write_wins md_text
           [ []; py "A:\nfirst"; py "B:\nother" ] (py "A:\nsecond")
           [ py "C: x" ]).
  - vm_compute; reflexivity.
  - vm_compute; reflexivity.
  - repeat constructor. intros val'. vm_compute. discriminate.
Defined.

(** C9: every key of the mapping returned by [split_sections] has no colon
    and no newline and no whitespace at either end, and every value has no
    whitespace at either end. *)
Theorem split_sections_entries_shape md_text key val :
  split_sections md_text !! key = Some val →
  Forall (λ c, c ≠ COLON ∧ c ≠ NL) key ∧ trimmed key ∧ trimmed val.
Proof.
  revert key val.
  apply (foldl_add_chunk_Forall
           (λ key val, Forall (λ c, c ≠ COLON ∧ c ≠ NL) key
                       ∧ trimmed key ∧ trimmed val)).
  - apply chunk_entry_shape.
  - apply map_Forall_empty.
Qed.

Lemma split_sections_entries_shape_witness :
  let md_text := py "###  Entradas  :  \n  - a: 1 \n\n" in
  split_sections md_text !! py "Entradas" = Some (py "- a: 1")
  ∧ Forall (λ c, c ≠ COLON ∧ c ≠ NL) (py "Entradas")
  ∧ trimmed (py "Entradas") ∧ trimmed (py "- a: 1").
Proof.
  intros md_text.
  assert (split_sections md_text !! py "Entradas" = Some (py "- a: 1")) as H
    by (vm_compute; reflexivity).
  split; [exact H|].
  exact (split_sections_entries_shape md_text _ _ H).
Defined.

(** ** [extract_fenced_code] *)

Lemma extract_fenced_code_sound md code :
  extract_fenced_code md = Some code →
  ∃ pre tag body rest,
    md = pre ++ FENCE ++ tag ++ NL :: body ++ FENCE ++ rest
    ∧ Forall (λ c, c ≠ NL) tag
    ∧ code = rstrip_with (N.eqb NL) body.
Proof.
  unfold extract_fenced_code.
  destruct (re_search fence_re md) as [m|] eqn:Hm; [|done]. intros [= <-].
  apply re_search_sound in Hm as (pre & a & -> & H).
  apply fence_re_inv in H as (tag & body & -> & Htag & Hg).
  exists pre, tag, body, (m_rest m). split_and!.
  - f_equal. rewrite <- app_assoc. f_equal. rewrite <- app_assoc. f_equal.
    simpl. f_equal. by rewrite <- app_assoc.
  - eapply Forall_impl; [done|]. intros c Hc ->. done.
  - unfold group_str, group. by rewrite Hg.
Qed.

(** Lines and fence markers: a fenced block has markers on two lines. *)

Lemma split_nl_fence a b :
  Exists (λ ln, contains FENCE ln = true) (split_nl (a ++ FENCE ++ b)).
Proof.
  induction a as [|c a IH].
  - rewrite FENCE_eq. simpl. destruct (split_nl b) as [|l ls]; by left.
  - rewrite <- app_comm_cons, split_nl_cons. destruct (c =? NL); [by right|].
    destruct (split_nl (a ++ FENCE ++ b)) as [|l ls]; [by inversion IH|].
    inversion IH; subst; [left; by apply contains_cons | by right].
Qed.

Lemma fence_lines_block md pre tag body rest :
  fenced_block md pre tag body rest → (2 ≤ length (fence_lines md))%nat.
Proof.
  intros [-> _]. unfold fence_lines.
  rewrite (app_assoc pre), (app_assoc (pre ++ FENCE)), split_nl_app.
  rewrite filter_app, length_app.
  assert (∀ l : list (list N),
            Exists (λ ln, contains FENCE ln = true) l →
            (1 ≤ length (filter (λ ln, contains FENCE ln = true) l))%nat)
    as Hone.
  { induction 1 as [ln l Hln|ln l _ IH].
    - rewrite filter_cons_True by done. simpl. lia.
    - rewrite filter_cons. destruct (decide _); simpl; lia. }
  pose proof (Hone _ (split_nl_fence pre tag)).
  pose proof (Hone _ (split_nl_fence body rest)).
  rewrite <- (app_assoc pre) . lia.
Qed.

(** C6: the text returned by [extract_fenced_code] is the content [body]
    of a fenced block of the input, from after the newline that ends the
    opening line (so without the language tag [tag]) up to a closing
    marker, less the newlines at its end: [body] is the returned text
    followed by newlines only, and the returned text does not end in a
    newline.  For [```python\nprint(1)\n```] the result is [print(1)];
    whitespace at the head of the content and inside it is kept. *)
Theorem extract_fenced_code_content md code :
  (extract_fenced_code md = Some code →
   ∃ pre tag body rest n,
     fenced_block md pre tag body rest
     ∧ body = code ++ replicate n NL
     ∧ last code ≠ Some NL)
  ∧ extract_fenced_code (py "```python\nprint(1)\n```")
    = Some (py "print(1)")
  ∧ extract_fenced_code (py "```\n  \tx = 1 \n\n   y\t \n\n\n```")
    = Some (py "  \tx = 1 \n\n   y\t ").
Proof.
  split_and!; [|vm_compute; reflexivity..].
  intros (pre & tag & body & rest & Hmd & Htag & ->)%extract_fenced_code_sound.
  destruct (rstrip_nl_spec body) as (n & Hbody & Hlast).
  by exists pre, tag, body, rest, n.
Qed.

Lemma extract_fenced_code_content_witness :
  ∃ pre tag body rest n,
    fenced_block (py "x\n```sh\nls\n\n```\n") pre tag body rest
    ∧ body = py "ls" ++ replicate n NL
    ∧ last (py "ls") ≠ Some NL.
Proof.
  apply (proj1 (extract_fenced_code_content (py "x\n```sh\nls\n\n```\n")
                  (py "ls"))).
  vm_compute; reflexivity.
Defined.

(** C7: in a text whose first fence marker is followed by the rest [tag]
    of its line, a newline, a content [body] and the first fence marker
    after that newline, [extract_fenced_code] returns [body] less the
    newlines at its end, whatever follows the closing marker, further
    fenced blocks included. *)
Theorem extract_fenced_code_first_block pre tag body rest :
  find FENCE (pre ++ FENCE) = Some (length pre) →
  forallb not_nl tag = true →
  find FENCE (body ++ FENCE) = Some (length body) →
  extract_fenced_code (pre ++ FENCE ++ tag ++ NL :: body ++ FENCE ++ rest)
    = Some (rstrip_with (N.eqb NL) body).
Proof.
  intros Hpre Htag Hbody. unfold extract_fenced_code.
  rewrite re_search_skip.
  - rewrite (re_search_here _ _ (Match rest {[ 1%nat := body ]})).
    + unfold group_str, group. simpl. by rewrite lookup_singleton_eq.
    + apply fence_re_match; [|done].
      apply Forall_forall. intros c Hc.
      rewrite forallb_forall in Htag. apply Htag. by apply list_elem_of_In.
  - intros p1 p2 -> Hp2. apply fence_re_no_fence.
    rewrite app_assoc, startswith_app_l.
    + by apply (find_first _ _ Hpre p1 p2).
    + rewrite length_app. simpl. lia.
Qed.

Lemma extract_fenced_code_first_block_witness :
  extract_fenced_code
    (py "Intro\n```python\na = 1\n\nb = 2\n```\ntext\n```\nsecond\n```\n")
  = Some (py "a = 1\n\nb = 2").
Proof.
  assert (py "Intro\n```python\na = 1\n\nb = 2\n```\ntext\n```\nsecond\n```\n"
          = py "Intro\n" ++ FENCE ++ py "python" ++ NL :: py "a = 1\n\nb = 2\n"
              ++ FENCE ++ py "\ntext\n```\nsecond\n```\n") as ->
    by (vm_compute; reflexivity).
  assert (py "a = 1\n\nb = 2" = rstrip_with (N.eqb NL) (py "a = 1\n\nb = 2\n"))
    as -> by (vm_compute; reflexivity).
  apply extract_fenced_code_first_block; vm_compute; reflexivity.
Defined.

(** C8: [extract_fenced_code] returns [None] for every text that has no
    complete fenced block, and so for every text without a fence marker;
    an opening marker that is never closed gives [None] too. *)
Theorem extract_fenced_code_not_found md :
  ((∀ pre tag body rest, ¬ fenced_block md pre tag body rest) →
   extract_fenced_code md = None)
  ∧ (contains FENCE md = false → extract_fenced_code md = None)
  ∧ extract_fenced_code (py "```python\nprint(1)\n") = None.
Proof.
  assert ((∀ pre tag body rest, ¬ fenced_block md pre tag body rest) →
          extract_fenced_code md = None) as Hnone.
  { intros Hno. destruct (extract_fenced_code md) as [code|] eqn:Hmd; [|done].
    apply extract_fenced_code_sound in Hmd
      as (pre & tag & body & rest & Hmd & Htag & _).
    by destruct (Hno pre tag body rest). }
  split_and!; [done| |vm_compute; reflexivity].
  intros Hc. apply Hnone. intros pre tag body rest [-> _].
  by rewrite contains_app in Hc.
Qed.

Lemma extract_fenced_code_not_found_witness :
  (∀ pre tag body rest,
     ¬ fenced_block (py "```python\nprint(1)\n") pre tag body rest)
  ∧ extract_fenced_code (py "```python\nprint(1)\n") = None
  ∧ contains FENCE (py "plain `text`\nno code") = false
  ∧ extract_fenced_code (py "plain `text`\nno code") = None.
Proof.
  assert (∀ pre tag body rest,
            ¬ fenced_block (py "```python\nprint(1)\n") pre tag body rest)
    as Hno.
  { intros pre tag body rest Hb%fence_lines_block.
    vm_compute in Hb. lia. }
  assert (contains FENCE (py "plain `text`\nno code") = false) as Hc
    by (vm_compute; reflexivity).
  split_and!; [done| |done|].
  - exact (proj1 (extract_fenced_code_not_found _) Hno).
  - exact (proj1 (proj2 (extract_fenced_code_not_found _)) Hc).
Defined.

(** C10: when all the fence markers of a text are on one line,
    [extract_fenced_code] returns [None]: nothing is captured unless a
    newline ends the line of the opening marker before the closing one.
    So it is for [```x```]. *)
Theorem extract_fenced_code_same_line md :
  (length (fence_lines md) ≤ 1)%nat → extract_fenced_code md = None.
Proof.
  intros Hlines. destruct (extract_fenced_code md) as [code|] eqn:Hmd; [|done].
  apply extract_fenced_code_sound in Hmd
    as (pre & tag & body & rest & Hmd & Htag & _).
  assert (fenced_block md pre tag body rest) as Hb by done.
  apply fence_lines_block in Hb. lia.
Qed.

Lemma extract_fenced_code_same_line_witness :
  fence_lines (py "```x```") = [ py "```x```" ]
  ∧ extract_fenced_code (py "```x```") = None
  ∧ extract_fenced_code (py "see\nthe ```x``` part\nbelow") = None.
Proof.
  split_and!.
  - vm_compute; reflexivity.
  - apply extract_fenced_code_same_line. vm_compute. lia.
  - apply extract_fenced_code_same_line. vm_compute. lia.
Defined.


(** ** Document assembly *)

(** The test of the comprehension selects the bullet lines. *)
Lemma is_bullet_line_strip ln :
  startswith DASH (strip ln) = is_bullet_line ln.
Proof.
  unfold strip, is_bullet_line. cbv zeta.
  generalize (lstrip_with is_space ln). intros x.
  destruct (startswith DASH x) eqn:Hx; cbn [andb].
  - apply startswith_prefix in Hx as [rest ->].
    change (drop 2 (DASH ++ rest)) with rest.
    destruct (existsb (λ c, negb (is_space c)) rest) eqn:Hrest.
    + rewrite rstrip_with_keep; [apply startswith_app|].
      apply existsb_Exists in Hrest. eapply Exists_impl; [done|].
      intros c Hc. by apply negb_true_iff.
    + apply existsb_Forall in Hrest.
      rewrite DASH_eq. change ([45; 32] ++ rest) with ([45] ++ 32 :: rest).
      rewrite rstrip_with_all; [done|]. constructor; [done|].
      eapply Forall_impl; [done|]. intros c Hc. by apply negb_false_iff.
  - destruct (startswith DASH (rstrip_with is_space x)) eqn:Hr; [|done].
    apply startswith_prefix in Hr as [r Hr].
    destruct (rstrip_with_prefix is_space x) as (b & Hb & _).
    rewrite Hb, Hr, <- app_assoc, startswith_app in Hx. done.
Qed.

Lemma bullet_items_filter content :
  filter (λ ln, startswith DASH (strip ln) = true) (splitlines content)
  = filter (λ ln, is_bullet_line ln = true) (splitlines content).
Proof.
  apply list_filter_iff. intros ln. by rewrite is_bullet_line_strip.
Qed.

(** C2 (as amended): under each of the four list keys, the bullet lines of
    a section are the lines that, after whitespace if any, start with the
    marker [DASH] followed by a rest that is not blank.  The items answer
    to the bullet lines one to one and in order, and the item of a bullet
    line that starts with the marker itself is the rest of the line,
    stripped.  The section is rendered as one plain paragraph exactly when
    it has no bullet line, and as one bullet per item otherwise.  The
    content [- a\n- b\nnote] gives the items [a] and [b]; lines with other
    markers are no bullet lines. *)
Theorem list_section_bullets styles key content :
  key ∈ LIST_KEYS →
  let bullets := filter (λ ln, is_bullet_line ln = true) (splitlines content) in
  Forall2 (λ ln item, ∀ rest, ln = DASH ++ rest → item = strip rest)
    bullets (bullet_items content)
  ∧ render_section styles key content
    = heading key 2
        :: match bullets with
           | [] => [paragraph content (py "NormalText")]
           | _ => bullet <$> bullet_items content
           end
  ∧ bullet_items (py "- a\n- b\nnote") = [ py "a"; py "b" ]
  ∧ bullet_items (py "* a\n1. b\n-c\n+ d") = [].
Proof.
  intros Hkey bullets. split_and!; [| |vm_compute; reflexivity..].
  - unfold bullet_items. rewrite bullet_items_filter. fold bullets.
    apply Forall2_fmap_r, Forall_Forall2_diag, Forall_forall.
    by intros ln _ rest ->.
  - unfold render_section. rewrite bool_decide_eq_true_2 by done.
    unfold bullet_items. rewrite bullet_items_filter. fold bullets.
    by destruct bullets.
Qed.

Lemma list_section_bullets_witness :
  render_section (λ _, true) (py "Entradas") (py "- a\n- b\nnote")
  = [ heading (py "Entradas") 2; bullet (py "a"); bullet (py "b") ].
Proof.
  assert (py "Entradas" ∈ LIST_KEYS) as Hkey by (vm_compute; by left).
  destruct (list_section_bullets (λ _, true) (py "Entradas")
              (py "- a\n- b\nnote") Hkey) as (_ & -> & _).
  vm_compute; reflexivity.
Defined.

(** The content [x\n  - b], which a section can have: no line starts with
    the marker itself, the code gives the item [- b], and the section is
    rendered as a bullet, not as a plain paragraph. *)
Example bullet_items_indented :
  split_sections (py "### Entradas:\nx\n  - b\n") !! py "Entradas"
    = Some (py "x\n  - b")
  ∧ literal_bullet_items (py "x\n  - b") = []
  ∧ bullet_items (py "x\n  - b") = [ py "- b" ]
  ∧ render_section (λ _, true) (py "Entradas") (py "x\n  - b")
    = [ heading (py "Entradas") 2; bullet (py "- b") ].
Proof. split_and!; vm_compute; reflexivity. Qed.

(** C2, counterexample to the claim as worded: for the content
    [x\n  - b] the items are not the lines that literally start with the
    marker. *)
Lemma bullet_items_not_literal : ¬ literal_bullet_claim (py "x\n  - b").
Proof. unfold literal_bullet_claim. vm_compute. discriminate. Qed.

(** C3 (as amended): [build] makes, in this order, the title, the
    sections of the loop, the fallback and the source annex.  The fallback
    fires exactly when the mapping has an entry for [EXEMPLO], that entry
    holds no fenced code (or an empty one), and the original text has a
    first fenced block that is not empty; it then adds a level-2 heading
    [EXEMPLO] followed by that block as a code block. *)
Theorem example_fallback_condition styles md_text src_name source_code
    include_source :
  let sections := split_sections md_text in
  let code_from_md := extract_fenced_code md_text in
  let fallback := example_fallback styles sections code_from_md in
  build styles md_text src_name source_code include_source
    = title_paragraph (opt_or (sections !! py "Título") src_name)
        :: render_sections styles sections
        ++ fallback
        ++ source_annex styles source_code include_source
  ∧ (∀ content code,
       sections !! EXEMPLO = Some content →
       truthy_opt (extract_fenced_code content) = false →
       code_from_md = Some code → code ≠ [] →
       fallback
       = heading EXEMPLO 2 :: add_code_block styles code (py "CodeBlock"))
  ∧ (fallback ≠ [] →
     ∃ content code,
       sections !! EXEMPLO = Some content
       ∧ truthy_opt (extract_fenced_code content) = false
       ∧ code_from_md = Some code ∧ code ≠ []).
Proof.
  intros sections code_from_md fallback. split_and!; [done|..].
  - intros content code Hsec Hcontent Hcode Hne.
    unfold fallback, example_fallback. rewrite Hsec, Hcontent, Hcode.
    by destruct code.
  - unfold fallback, example_fallback.
    destruct (sections !! EXEMPLO) as [content|]; [|done].
    destruct (truthy_opt (extract_fenced_code content)) eqn:Hcontent; [done|].
    destruct code_from_md as [[|c code]|]; [done| |done].
    intros _. by exists content, (c :: code).
Qed.

Lemma example_fallback_condition_witness :
  let md_text := py "### Exemplo de Uso:\n```python\n### setup\nrun()\n```\n" in
  split_sections md_text !! EXEMPLO = Some (py "```python")
  ∧ extract_fenced_code md_text = Some (py "### setup\nrun()")
  ∧ example_fallback (λ _, true) (split_sections md_text)
      (extract_fenced_code md_text)
    = heading EXEMPLO 2
        :: add_code_block (λ _, true) (py "### setup\nrun()") (py "CodeBlock").
Proof.
  intros md_text.
  assert (split_sections md_text !! EXEMPLO = Some (py "```python")) as Hsec
    by (vm_compute; reflexivity).
  assert (extract_fenced_code md_text = Some (py "### setup\nrun()")) as Hcode
    by (vm_compute; reflexivity).
  split_and!; [done|done|].
  apply (proj1 (proj2 (example_fallback_condition (λ _, true) md_text
                         (py "s.py") [] false)) _ _ Hsec).
  - vm_compute; reflexivity.
  - exact Hcode.
  - vm_compute; discriminate.
Defined.

(** The text [```\nx\n```] has a fenced block and no section at all, so
    nothing has rendered that block; yet the fallback adds nothing, and the
    document has neither the heading [EXEMPLO] nor the block. *)
Example build_without_sections :
  extract_fenced_code (py "```\nx\n```") = Some (py "x")
  ∧ split_sections (py "```\nx\n```") = ∅
  ∧ build (λ _, true) (py "```\nx\n```") (py "s.py") (py "pass") false
    = [ title_paragraph (py "s.py") ].
Proof. split_and!; vm_compute; reflexivity. Qed.

(** C3, counterexample to the claim as worded: for the text
    [```\nx\n```] the fallback does not fire, although the text has a
    fenced block that the loop has not rendered. *)
Lemma example_fallback_needs_section :
  ¬ fallback_claim (λ _, true) (py "```\nx\n```").
Proof.
  unfold fallback_claim. intros [_ Hfire]. apply Hfire; [|vm_compute; reflexivity].
  split; [vm_compute; by eexists|vm_compute; reflexivity].
Qed.

(** * Further properties *)

(** Case analysis on the code points that a function matches against
    literals. *)
Ltac case_bits :=
  repeat match goal with
    | |- context [match ?p with xI _ => _ | xO _ => _ | xH => _ end] =>
        is_var p; destruct p
    | |- context [match ?c with N0 => _ | Npos _ => _ end] =>
        is_var c; destruct c
    end.

Lemma replace_crlf_cons c s :
  replace_crlf (c :: s) =
    match s with
    | d :: s' =>
        if (c =? 13) && (d =? 10) then 10 :: replace_crlf s'
        else c :: replace_crlf s
    | [] => [c]
    end.
Proof.
  destruct s as [|d s]; cbn [replace_crlf]; case_bits; reflexivity.
Qed.

Lemma splitlines_from_cons cur c s :
  splitlines_from cur (c :: s) =
    match s with
    | d :: s' =>
        if (c =? 13) && (d =? 10) then reverse cur :: splitlines_from [] s'
        else if is_linebreak c then reverse cur :: splitlines_from [] s
        else splitlines_from (c :: cur) s
    | [] =>
        if is_linebreak c then reverse cur :: splitlines_from [] []
        else splitlines_from (c :: cur) []
    end.
Proof.
  destruct s as [|d s]; cbn [splitlines_from]; case_bits; reflexivity.
Qed.

Lemma forallb_Forall (f : N → bool) (l : list N) :
  forallb f l = true → Forall (λ c, f c = true) l.
Proof.
  induction l as [|c l IH]; [constructor|]. simpl.
  intros [Hc Hl]%andb_prop. constructor; [done|by apply IH].
Qed.

Lemma forallb_not_elem (x : N) (l : list N) :
  forallb (λ c, negb (c =? x)) l = true → x ∉ l.
Proof.
  intros Hl%forallb_Forall Hin. rewrite Forall_forall in Hl.
  specialize (Hl _ Hin). by rewrite N.eqb_refl in Hl.
Qed.

(** ** [split_sections], continued *)

(** *** Occurrences *)
Lemma find_Some_split pat s n :
  find pat s = Some n →
  ∃ a b, s = a ++ pat ++ b ∧ length a = n ∧ find pat (a ++ pat) = Some n.
Proof.
  revert n. induction s as [|c s IH]; intros n; rewrite find_unfold.
  - destruct (startswith pat []) eqn:Hp; [|done]. intros [= <-].
    apply startswith_prefix in Hp as [b Hb]. exists [], b. split_and!; [done..|].
    rewrite app_nil_l, find_unfold. rewrite <- (app_nil_r pat) at 2.
    by rewrite startswith_app.
  - destruct (startswith pat (c :: s)) eqn:Hp.
    + intros [= <-]. apply startswith_prefix in Hp as [b Hb].
      exists [], b. split_and!; [done..|].
      rewrite app_nil_l, find_unfold. rewrite <- (app_nil_r pat) at 2.
      by rewrite startswith_app.
    + destruct (find pat s) as [n'|] eqn:Hs; [|done]. intros [= <-].
      destruct (IH n' eq_refl) as (a & b & -> & Hlen & Hfind).
      exists (c :: a), b. split_and!; [done|simpl; by rewrite Hlen|].
      rewrite <- app_comm_cons, find_unfold.
      replace (startswith pat (c :: a ++ pat)) with false; [by rewrite Hfind|].
      rewrite <- Hp. rewrite !app_comm_cons, (app_assoc _ pat b).
      rewrite startswith_app_l; [done|]. rewrite length_app. lia.
Qed.

Lemma contains_split pat s :
  contains pat s = true →
  ∃ a b, s = a ++ pat ++ b ∧ find pat (a ++ pat) = Some (length a).
Proof.
  unfold contains. destruct (find pat s) as [n|] eqn:Hs; [|done]. intros _.
  apply find_Some_split in Hs as (a & b & -> & <- & Hfind). by exists a, b.
Qed.

Lemma contains_prefix pat a b : contains pat a = true → contains pat (a ++ b) = true.
Proof.
  intros (x & y & -> & _)%contains_split.
  rewrite <- !app_assoc. apply contains_app.
Qed.

Lemma contains_elem pat s c : contains pat s = true → c ∈ pat → c ∈ s.
Proof.
  intros (x & y & -> & _)%contains_split Hc.
  apply elem_of_app. right. apply elem_of_app. by left.
Qed.

(** *** Line endings and blank texts *)
Lemma replace_crlf_Forall (P : N → Prop) s : Forall P s → Forall P (replace_crlf s).
Proof.
  induction s as [s IH] using (induction_ltof1 _ length). unfold ltof in IH.
  intros Hs. destruct s as [|c s]; [done|]. rewrite replace_crlf_cons.
  destruct s as [|d s]; [done|].
  inversion Hs as [|? ? Hc Hs']; subst. inversion Hs' as [|? ? Hd Hs'']; subst.
  destruct ((c =? 13) && (d =? 10)) eqn:Hcd.
  - apply andb_prop in Hcd as [_ Hd10]. apply N.eqb_eq in Hd10 as ->.
    constructor; [done|]. apply IH; [simpl; lia|done].
  - constructor; [done|]. apply IH; [simpl; lia|done].
Qed.

Lemma replace_crlf_to_crlf s : replace_crlf (to_crlf s) = s.
Proof.
  assert (∀ s, head (to_crlf s) ≠ Some 10) as Hhead.
  { intros [|c t]; [done|]. simpl. destruct (c =? NL) eqn:Hc; [done|].
    apply N.eqb_neq in Hc. simpl. intros [= ->]. done. }
  induction s as [|c s IH]; [done|]. simpl.
  destruct (c =? NL) eqn:Hc.
  - apply N.eqb_eq in Hc as ->. rewrite replace_crlf_cons. simpl. by rewrite IH.
  - rewrite replace_crlf_cons. specialize (Hhead s).
    destruct (to_crlf s) as [|d t] eqn:Ht.
    + by rewrite <- IH.
    + destruct (d =? 10) eqn:Hd.
      * apply N.eqb_eq in Hd as ->. done.
      * rewrite andb_false_r. by rewrite IH.
Qed.

Lemma strip_blank s : Forall (λ c, is_space c = true) s → strip s = [].
Proof.
  intros Hs. unfold strip.
  rewrite <- (app_nil_r s), lstrip_with_all by done. done.
Qed.

Lemma blank_no_marker s :
  Forall (λ c, is_space c = true) s → contains MARKER s = false.
Proof.
  intros Hs. destruct (contains MARKER s) eqn:Hc; [|done].
  assert (35 ∈ s) as Hin.
  { apply (contains_elem MARKER); [done|]. rewrite MARKER_eq. by left. }
  rewrite Forall_forall in Hs. by specialize (Hs _ Hin).
Qed.

(** X1: a text made of whitespace only, the empty text included, gives the
    empty mapping. *)
Theorem split_sections_blank md_text :
  Forall (λ c, is_space c = true) md_text → split_sections md_text = ∅.
Proof.
  intros Hs. apply (replace_crlf_Forall _ _) in Hs.
  rewrite split_sections_no_marker by by apply blank_no_marker.
  unfold chunk_entry. by rewrite strip_blank.
Qed.

Lemma split_sections_blank_witness :
  split_sections (py " \n\t\r\n  \n") = ∅.
Proof.
  apply split_sections_blank, forallb_Forall. vm_compute; reflexivity.
Defined.

(** X2: [split_sections] does not depend on the line endings: a text
    without CR LF pairs and the same text with every newline written CR LF
    give the same mapping. *)
Theorem split_sections_crlf md_text :
  replace_crlf md_text = md_text →
  split_sections (to_crlf md_text) = split_sections md_text.
Proof.
  intros Hmd. unfold split_sections, chunks.
  by rewrite replace_crlf_to_crlf, Hmd.
Qed.

Lemma split_sections_crlf_witness :
  to_crlf (py "### A:\nx\n### B: y\n") = py "### A:\r\nx\r\n### B: y\r\n"
  ∧ split_sections (to_crlf (py "### A:\nx\n### B: y\n"))
    = split_sections (py "### A:\nx\n### B: y\n").
Proof.
  split; [vm_compute; reflexivity|].
  apply split_sections_crlf. vm_compute; reflexivity.
Defined.

(** X3: the first (multi-line) pattern adds nothing to the second: every
    chunk the first pattern matches is matched by the second too, with the
    same key and the same value once stripped. *)
Theorem strict_match_redundant ch m :
  re_match strict_re ch = Some m →
  ∃ m', re_match single_re ch = Some m'
        ∧ strip (group_str m' 1) = strip (group_str m 1)
        ∧ strip (group_str m' 2) = strip (group_str m 2).
Proof.
  intros Hm. pose proof Hm as (a & Hch & H)%re_match_sound.
  apply strict_re_inv in H as (title & ws & rest & -> & Hne & Ht & _).
  rewrite <- app_assoc, <- app_comm_cons in Hch. subst ch.
  apply strict_re_match in Hm as (ws' & rest' & Hrest & Hws & ->); [|done..].
  eexists. split; [by apply single_re_match|].
  unfold group_str, group. cbn [m_groups].
  rewrite !lookup_insert_ne, !lookup_singleton_eq, !lookup_insert_eq by done.
  cbn [default from_option id]. split; [done|].
  rewrite strip_lstrip, Hrest.
  change (ws' ++ NL :: rest') with (ws' ++ [NL] ++ rest').
  rewrite app_assoc. apply strip_app_space.
  apply Forall_app. split; [done|]. by repeat constructor.
Qed.

Lemma strict_match_redundant_witness :
  ∃ m m',
    re_match strict_re (py "Título: \n\n Hello\n") = Some m
    ∧ re_match single_re (py "Título: \n\n Hello\n") = Some m'
    ∧ strip (group_str m' 1) = strip (group_str m 1)
    ∧ strip (group_str m' 2) = strip (group_str m 2).
Proof.
  destruct (re_match strict_re (py "Título: \n\n Hello\n")) as [m|] eqn:Hm;
    [|vm_compute in Hm; discriminate].
  destruct (strict_match_redundant _ m Hm) as (m' & Hm' & H1 & H2).
  by exists m, m'.
Defined.

Lemma split_nl_head_app w y :
  NL ∉ w → hd [] (split_nl (w ++ y)) = w ++ hd [] (split_nl y).
Proof.
  induction w as [|c w IH]; intros Hw; [done|].
  rewrite <- app_comm_cons, split_nl_cons.
  destruct (c =? NL) eqn:Hc.
  - apply N.eqb_eq in Hc as ->. destruct Hw. by left.
  - specialize (IH ltac:(intros ?; apply Hw; by right)).
    destruct (split_nl (w ++ y)) as [|l ls]; simpl in *.
    + destruct w; [|done]. simpl in *. by rewrite <- IH.
    + by rewrite IH.
Qed.

Lemma chunk_entry_no_colon ch :
  COLON ∉ first_line ch ∨ head ch = Some COLON → chunk_entry ch = None.
Proof.
  intros Hch.
  destruct (chunk_entry ch) as [[key val]|] eqn:Hentry; [|done]. exfalso.
  apply chunk_entry_inv in Hentry
    as (title & rest & -> & Hne & Ht & _).
  assert ((NL ∉ title) ∧ (COLON ∉ title)) as [Hnl Hcolon].
  { rewrite Forall_forall in Ht. split; intros Hin; specialize (Ht _ Hin);
      vm_compute in Ht; discriminate. }
  destruct Hch as [Hline|Hhead].
  - apply Hline. unfold first_line.
    rewrite split_nl_head_app by done.
    apply elem_of_app. right.
    rewrite split_nl_cons. change (COLON =? NL) with false.
    destruct (split_nl rest); simpl; by left.
  - destruct title as [|c title]; [done|]. simpl in Hhead.
    injection Hhead as ->. apply Hcolon. by left.
Qed.

(** X4: a chunk whose first line has no colon, or that starts with a colon,
    is dropped: the loop leaves the mapping as it is. *)
Theorem add_chunk_no_colon sections ch :
  COLON ∉ first_line ch ∨ head ch = Some COLON →
  add_chunk sections ch = sections.
Proof.
  intros Hch. by rewrite add_chunk_entry, chunk_entry_no_colon.
Qed.

Lemma add_chunk_no_colon_witness :
  first_line (py "sem dois pontos\nchave: valor") = py "sem dois pontos"
  ∧ add_chunk {[ py "A" := py "1" ]} (py "sem dois pontos\nchave: valor")
    = {[ py "A" := py "1" ]}
  ∧ add_chunk {[ py "A" := py "1" ]} (py ": valor") = {[ py "A" := py "1" ]}.
Proof.
  split_and!; [vm_compute; reflexivity|..].
  - apply add_chunk_no_colon. left. apply forallb_not_elem.
    vm_compute; reflexivity.
  - apply add_chunk_no_colon. right. vm_compute; reflexivity.
Defined.

(** X5: a text without the marker gives at most one entry.  It gives the
    entry of its title and of what follows the colon, both stripped, when
    it starts with a title (not empty, without colon or newline) and a
    colon, and no entry when its first line has no colon. *)
Theorem split_sections_without_marker md_text :
  contains MARKER (replace_crlf md_text) = false →
  (size (split_sections md_text) ≤ 1)%nat
  ∧ (∀ title rest,
       replace_crlf md_text = title ++ COLON :: rest →
       title ≠ [] → Forall (λ c, not_colon_nl c = true) title →
       split_sections md_text = {[ strip title := strip rest ]})
  ∧ (COLON ∉ first_line (replace_crlf md_text) → split_sections md_text = ∅).
Proof.
  intros Hs. rewrite split_sections_no_marker by done. split_and!.
  - destruct (chunk_entry _) as [[key val]|].
    + rewrite map_size_singleton. lia.
    + rewrite map_size_empty. lia.
  - intros title rest -> Hne Ht. by rewrite chunk_entry_colon.
  - intros Hline. rewrite chunk_entry_no_colon; [done|by left].
Qed.

Lemma split_sections_without_marker_witness :
  (size (split_sections (py "Resumo: sem marcador\noutra linha")) ≤ 1)%nat
  ∧ split_sections (py "Resumo: sem marcador\noutra linha")
    = {[ py "Resumo" := py "sem marcador\noutra linha" ]}
  ∧ split_sections (py "nada aqui\nResumo: x") = ∅.
Proof.
  assert (contains MARKER (replace_crlf (py "Resumo: sem marcador\noutra linha"))
          = false) as H1 by (vm_compute; reflexivity).
  assert (contains MARKER (replace_crlf (py "nada aqui\nResumo: x")) = false)
    as H2 by (vm_compute; reflexivity).
  destruct (split_sections_without_marker _ H1) as (Hsize & Htitle & _).
  destruct (split_sections_without_marker _ H2) as (_ & _ & Hnone).
  split_and!; [done| |].
  - rewrite (Htitle (py "Resumo") (py " sem marcador\noutra linha")).
    + vm_compute; reflexivity.
    + vm_compute; reflexivity.
    + vm_compute; discriminate.
    + apply forallb_Forall. vm_compute; reflexivity.
  - apply Hnone, forallb_not_elem. vm_compute; reflexivity.
Defined.

(** ** [extract_fenced_code], continued *)

Lemma app_eq_suffix (l1 l2 k1 k2 : list N) :
  l1 ++ l2 = k1 ++ k2 → (length l1 ≤ length k1)%nat →
  ∃ w, k1 = l1 ++ w ∧ l2 = w ++ k2.
Proof.
  intros Heq Hlen. apply app_eq_inv in Heq as [(k & -> & ->)|(k & -> & ->)].
  - rewrite length_app in Hlen. destruct k; [|simpl in Hlen; lia].
    exists []. by rewrite !app_nil_r.
  - by exists k.
Qed.

(** The helper behind the match at the first marker. *)
Lemma extract_at_first_marker pre tag body rest :
  find FENCE (pre ++ FENCE) = Some (length pre) →
  Forall (λ c, not_nl c = true) tag →
  find FENCE (body ++ FENCE) = Some (length body) →
  extract_fenced_code (pre ++ FENCE ++ tag ++ NL :: body ++ FENCE ++ rest)
    = Some (rstrip_with (N.eqb NL) body).
Proof.
  intros Hpre Htag Hbody. unfold extract_fenced_code.
  rewrite re_search_skip.
  - rewrite (re_search_here _ _ (Match rest {[ 1%nat := body ]})).
    + unfold group_str, group. simpl. by rewrite lookup_singleton_eq.
    + by apply fence_re_match.
  - intros p1 p2 -> Hp2. apply fence_re_no_fence.
    rewrite app_assoc, startswith_app_l.
    + by apply (find_first _ _ Hpre p1 p2).
    + rewrite length_app. simpl. lia.
Qed.

(** Every fenced block of a text gives one that starts at the first marker
    of the text and ends at the first marker after the opening line. *)
Lemma fenced_block_first md pre tag body rest :
  fenced_block md pre tag body rest →
  ∃ pre' tag' body' rest',
    md = pre' ++ FENCE ++ tag' ++ NL :: body' ++ FENCE ++ rest'
    ∧ find FENCE (pre' ++ FENCE) = Some (length pre')
    ∧ Forall (λ c, not_nl c = true) tag'
    ∧ find FENCE (body' ++ FENCE) = Some (length body').
Proof.
  intros [Hmd _].
  assert (contains FENCE md = true) as Hc by (rewrite Hmd; apply contains_app).
  apply contains_split in Hc as (a & b & Hab & Ha).
  (* the first marker is not after the given one *)
  assert (length a ≤ length pre)%nat as Hlen.
  { destruct (decide (length a ≤ length pre)%nat) as [|Hgt]; [done|]. exfalso.
    rewrite Hab in Hmd. symmetry in Hmd.
    apply app_eq_suffix in Hmd as (w & -> & Hw); [|lia].
    assert (w ≠ []) as Hne.
    { intros ->. rewrite app_nil_r in Hgt. lia. }
    pose proof (find_first _ _ Ha pre w eq_refl Hne) as Hs.
    rewrite <- (startswith_app_l _ _ b) in Hs by (rewrite length_app; simpl; lia).
    rewrite <- app_assoc, <- Hw, startswith_app in Hs. discriminate. }
  rewrite Hmd in Hab. symmetry in Hab.
  apply app_eq_suffix in Hab as (w & -> & Hw); [|done].
  (* what follows the first marker has the given newline and closing marker *)
  assert (∃ x, b = x ++ NL :: body ++ FENCE ++ rest) as [x Hb].
  { assert (FENCE ++ b = (w ++ FENCE ++ tag) ++ NL :: body ++ FENCE ++ rest) as Heq.
    { rewrite Hw. by rewrite <- !app_assoc. }
    apply app_eq_suffix in Heq as (y & Hy & ->);
      [|rewrite !length_app; simpl; lia].
    by exists y. }
  assert (NL ∈ b) as Hnl.
  { rewrite Hb. apply elem_of_app. right. by left. }
  apply list_elem_of_split_l in Hnl as (u & v & Huv & Hu).
  assert (contains FENCE v = true) as Hv.
  { rewrite Huv in Hb.
    assert (∀ y, contains FENCE (y ++ body ++ FENCE ++ rest) = true) as Hy.
    { intros y. rewrite (app_assoc y). apply contains_app. }
    remember (body ++ FENCE ++ rest) as Z eqn:HZ.
    apply app_eq_inv in Hb as [(k & -> & Hk)|(k & -> & Hk)].
    - destruct k as [|c k].
      + rewrite app_nil_l in Hk. injection Hk as Hk. rewrite <- Hk.
        apply (Hy []).
      + rewrite <- app_comm_cons in Hk. injection Hk as Hc Hk.
        destruct Hu. apply elem_of_app. right. rewrite <- Hc. by left.
    - destruct k as [|c k].
      + rewrite app_nil_l in Hk. injection Hk as Hk. rewrite Hk.
        apply (Hy []).
      + rewrite <- app_comm_cons in Hk. injection Hk as Hc Hk. rewrite Hk.
        rewrite (cons_middle NL), app_assoc. apply Hy. }
  apply contains_split in Hv as (body' & rest' & -> & Hbody').
  exists a, u, body', rest'. split_and!; [|done| |done].
  - rewrite Hmd. rewrite <- (app_assoc a w), <- Hw, Huv. done.
  - apply Forall_forall. intros c Hc. unfold not_nl.
    destruct (c =? NL) eqn:Hcn; [|done]. apply N.eqb_eq in Hcn as ->. done.
Qed.

(** X6: [extract_fenced_code] misses no block: it returns a text for every
    input that has a fenced block. *)
Theorem extract_fenced_code_found md pre tag body rest :
  fenced_block md pre tag body rest → is_Some (extract_fenced_code md).
Proof.
  intros (pre' & tag' & body' & rest' & -> & Hpre & Htag & Hbody)%fenced_block_first.
  rewrite extract_at_first_marker by done. by eexists.
Qed.

Lemma extract_fenced_code_found_witness :
  fenced_block (py "a ````py\nx = 1\n``` b") (py "a `") (py "py")
    (py "x = 1\n") (py " b")
  ∧ is_Some (extract_fenced_code (py "a ````py\nx = 1\n``` b")).
Proof.
  assert (fenced_block (py "a ````py\nx = 1\n``` b") (py "a `") (py "py")
            (py "x = 1\n") (py " b")) as Hb.
  { split; [vm_compute; reflexivity|]. vm_compute.
    repeat (apply Forall_cons_2; [discriminate|]). apply Forall_nil_2. }
  split; [exact Hb|]. exact (extract_fenced_code_found _ _ _ _ _ Hb).
Defined.

(** X7: the text [extract_fenced_code] returns has no fence marker in it,
    so that extracting from it again finds nothing. *)
Theorem extract_fenced_code_no_fence md code :
  extract_fenced_code md = Some code →
  contains FENCE code = false ∧ extract_fenced_code code = None.
Proof.
  intros Hcode.
  assert (contains FENCE code = false) as Hno.
  { pose proof Hcode as (pre & tag & body & rest & Hmd & Htag & _)%extract_fenced_code_sound.
    assert (fenced_block md pre tag body rest) as Hb by done.
    apply fenced_block_first in Hb
      as (pre' & tag' & body' & rest' & -> & Hpre & Htag' & Hbody).
    rewrite extract_at_first_marker in Hcode by done. injection Hcode as <-.
    destruct (contains FENCE (rstrip_with (N.eqb NL) body')) eqn:Hc; [|done].
    destruct (rstrip_with_prefix (N.eqb NL) body') as (z & Hz & _).
    apply (contains_prefix _ _ z) in Hc. rewrite <- Hz in Hc.
    apply contains_split in Hc as (x & y & -> & _).
    assert (FENCE ++ y ≠ []) as Hne by (by rewrite FENCE_eq).
    pose proof (find_first _ _ Hbody x (FENCE ++ y) eq_refl Hne) as Hs.
    by rewrite <- app_assoc, startswith_app in Hs. }
  split; [done|].
  destruct (extract_fenced_code code) as [code'|] eqn:Hc; [|done].
  apply extract_fenced_code_sound in Hc as (pre & tag & body & rest & -> & _).
  by rewrite contains_app in Hno.
Qed.

Lemma extract_fenced_code_no_fence_witness :
  extract_fenced_code (py "```\na ``b``\n```\n```\nc\n```")
    = Some (py "a ``b``")
  ∧ contains FENCE (py "a ``b``") = false
  ∧ extract_fenced_code (py "a ``b``") = None.
Proof.
  assert (extract_fenced_code (py "```\na ``b``\n```\n```\nc\n```")
          = Some (py "a ``b``")) as Hc by (vm_compute; reflexivity).
  split; [exact Hc|]. exact (extract_fenced_code_no_fence _ _ Hc).
Defined.

(** ** Reports and their sections *)

Section Strings.
Implicit Types (p : N → bool) (s a b pat : list N) (c x : N).

Lemma lstrip_with_id p s :
  (∀ c, head s = Some c → p c = false) → lstrip_with p s = s.
Proof. destruct s as [|c s]; [done|]. intros H. simpl. by rewrite (H c). Qed.

Lemma rstrip_with_id p s :
  (∀ c, last s = Some c → p c = false) → rstrip_with p s = s.
Proof.
  intros H. unfold rstrip_with. rewrite lstrip_with_id.
  - apply reverse_involutive.
  - intros c. rewrite head_reverse. apply H.
Qed.

Lemma strip_around a s b :
  trimmed s →
  Forall (λ c, is_space c = true) a → Forall (λ c, is_space c = true) b →
  strip (a ++ s ++ b) = s.
Proof.
  intros [Hhead Hlast] Ha Hb. destruct s as [|c s].
  - apply strip_blank. by apply Forall_app.
  - unfold strip. rewrite lstrip_with_all by done.
    rewrite lstrip_with_id by (intros d [= <-]; by apply Hhead).
    rewrite rstrip_with_all by done. by apply rstrip_with_id.
Qed.

Lemma startswith_sep pat a x b :
  x ∉ pat → startswith pat (a ++ x :: b) = startswith pat a.
Proof.
  revert a. induction pat as [|q pat IH]; intros a Hx; [done|].
  destruct a as [|c a]; simpl.
  - destruct (q =? x) eqn:Hq; [|done]. apply N.eqb_eq in Hq as ->.
    destruct Hx. by left.
  - rewrite IH; [done|]. intros Hin. apply Hx. by right.
Qed.

Lemma contains_false pat s : contains pat s = false ↔ find pat s = None.
Proof. unfold contains. by destruct (find pat s). Qed.

Lemma contains_cons_false pat c s :
  contains pat (c :: s) = false →
  startswith pat (c :: s) = false ∧ contains pat s = false.
Proof.
  rewrite !contains_false, (find_unfold pat (c :: s)).
  destruct (startswith pat (c :: s)); [done|].
  by destruct (find pat s).
Qed.

Lemma contains_sep pat a x b :
  x ∉ pat → pat ≠ [] →
  contains pat a = false → contains pat b = false →
  contains pat (a ++ x :: b) = false.
Proof.
  intros Hx Hne Ha Hb. induction a as [|c a IH].
  - pose proof (startswith_sep pat [] x b Hx) as Hs. rewrite app_nil_l in Hs.
    apply contains_false. rewrite app_nil_l, find_unfold, Hs.
    destruct pat; [done|]. simpl. apply contains_false in Hb. by rewrite Hb.
  - apply contains_cons_false in Ha as [Hs Ha].
    apply contains_false. rewrite <- app_comm_cons, find_unfold.
    rewrite app_comm_cons, startswith_sep, Hs by done.
    specialize (IH Ha). apply contains_false in IH. by rewrite IH.
Qed.

Lemma replace_crlf_id s : 13 ∉ s → replace_crlf s = s.
Proof.
  induction s as [|c s IH]; [done|]. intros Hs.
  rewrite replace_crlf_cons.
  assert (c ≠ 13) as Hc by (intros ->; apply Hs; by left).
  apply N.eqb_neq in Hc. rewrite Hc. simpl.
  rewrite IH; [by destruct s|]. intros Hin. apply Hs. by right.
Qed.

End Strings.

(** The heading pattern at a marker. *)
Lemma run_opt_cons p r c s g
    (k : list N → gmap nat (list N) → option match_obj) :
  run (Rep Opt p >> r) (c :: s) g k =
    if p c then
      match run r s g k with
      | Some x => Some x
      | None => run r (c :: s) g k
      end
    else run r (c :: s) g k.
Proof. done. Qed.

Lemma run_marker_spaces s :
  run (lit MARKER >> Rep Plus is_space) (MARKER ++ 32 :: s) ∅
    (λ s' g, Some (Match s' g))
  = Some (Match (lstrip_with is_space s) ∅).
Proof.
  rewrite run_cat, run_lit, startswith_app, drop_app_length.
  cbn [run rep]. change (is_space 32) with true. cbn iota.
  rewrite star_lstrip; [done|]. by eexists.
Qed.

Lemma heading_re_at_marker s :
  re_match heading_re (MARKER ++ 32 :: s)
  = Some (Match (lstrip_with is_space s) ∅).
Proof.
  unfold re_match, heading_re.
  change (MARKER ++ 32 :: s) with (35 :: ([35; 35] ++ 32 :: s)) at 1.
  rewrite run_opt_cons. change (NL =? 35) with false. cbn iota.
  apply run_marker_spaces.
Qed.

Lemma heading_re_at_nl_marker s :
  re_match heading_re (NL :: MARKER ++ 32 :: s)
  = Some (Match (lstrip_with is_space s) ∅).
Proof.
  unfold re_match, heading_re.
  by rewrite run_opt_cons, N.eqb_refl, run_marker_spaces.
Qed.

Lemma heading_re_inv2 s m :
  re_match heading_re s = Some m →
  startswith MARKER s = true
  ∨ ∃ s', s = NL :: s' ∧ startswith MARKER s' = true.
Proof.
  intros (a & -> & H)%re_match_sound. unfold heading_re in H.
  rewrite MARKER_eq in *. simpl lit in H.
  inversion H as [| | |? ? nl a2 ? ? ? Hnl H2|]; subst. clear H.
  inversion Hnl as [| |? ? ? ? Hall _ Hlen| |]; subst. clear Hnl.
  specialize (Hlen eq_refl). inv_matches.
  destruct nl as [|c nl].
  - by left.
  - destruct nl; [|simpl in Hlen; lia]. right.
    inversion Hall as [|? ? Hc _]; subst. apply N.eqb_eq in Hc as <-.
    by eexists.
Qed.

Lemma startswith_contains pat s : startswith pat s = true → contains pat s = true.
Proof. intros Hs. unfold contains. by rewrite find_unfold, Hs. Qed.

Lemma heading_re_none p tail :
  contains MARKER p = false → p ≠ [] →
  re_match heading_re (p ++ NL :: tail) = None.
Proof.
  intros Hp Hne.
  assert (NL ∉ MARKER) as Hnl.
  { rewrite MARKER_eq. intros Hin. by repeat (apply elem_of_cons in Hin as [?|Hin]; [done|]);
      apply elem_of_nil in Hin. }
  destruct (re_match heading_re (p ++ NL :: tail)) as [m|] eqn:Hm; [|done].
  exfalso. apply heading_re_inv2 in Hm as [Hs|(s' & Heq & Hs)].
  - rewrite startswith_sep in Hs by done.
    apply startswith_contains in Hs. congruence.
  - destruct p as [|c p]; [done|]. rewrite <- app_comm_cons in Heq.
    injection Heq as -> <-. rewrite startswith_sep in Hs by done.
    apply startswith_contains, (contains_cons _ NL) in Hs. congruence.
Qed.

Lemma split_loop_piece n cur p s :
  contains MARKER p = false →
  split_loop (length p + S n) heading_re cur (p ++ NL :: MARKER ++ 32 :: s)
  = (reverse cur ++ p) :: split_loop n heading_re [] (lstrip_with is_space s).
Proof.
  revert cur. induction p as [|c p IH]; intros cur Hp.
  - rewrite app_nil_l, app_nil_r. cbn [length Nat.add].
    by rewrite split_loop_S, heading_re_at_nl_marker.
  - cbn [length Nat.add]. rewrite split_loop_S.
    rewrite heading_re_none by done. rewrite <- app_comm_cons.
    apply contains_cons_false in Hp as [_ Hp].
    rewrite IH by done. by rewrite reverse_cons, <- app_assoc.
Qed.

Lemma lstrip_with_length p s : (length (lstrip_with p s) ≤ length s)%nat.
Proof.
  destruct (lstrip_with_suffix p s) as (a & Hs & _).
  rewrite Hs at 2. rewrite length_app. lia.
Qed.

Lemma re_split_piece p s :
  contains MARKER p = false →
  re_split heading_re (p ++ NL :: MARKER ++ 32 :: s)
  = p :: re_split heading_re (lstrip_with is_space s).
Proof.
  intros Hp. unfold re_split at 1.
  replace (S (length (p ++ NL :: MARKER ++ 32 :: s)))
    with (length p + S (S (length (MARKER ++ 32%N :: s))))%nat
    by (rewrite !length_app; simpl; lia).
  rewrite split_loop_piece by done. f_equal.
  apply re_split_fuel. pose proof (lstrip_with_length is_space s).
  rewrite length_app. simpl. lia.
Qed.

Lemma re_split_first s :
  re_split heading_re (MARKER ++ 32 :: s)
  = [] :: re_split heading_re (lstrip_with is_space s).
Proof.
  unfold re_split at 1. rewrite split_loop_S, heading_re_at_marker.
  f_equal. apply re_split_fuel. pose proof (lstrip_with_length is_space s).
  rewrite length_app. simpl. lia.
Qed.

Lemma re_split_no_marker s :
  contains MARKER s = false → re_split heading_re s = [s].
Proof. intros Hs. unfold re_split. by rewrite split_loop_no_marker by (done || lia). Qed.

Lemma render_report_cons e l :
  render_report (e :: l) = MARKER ++ 32 :: piece e ++ NL :: render_report l.
Proof.
  cbn [render_report]. unfold render_block, piece.
  rewrite <- (app_assoc MARKER). f_equal. rewrite <- app_comm_cons. f_equal.
  rewrite <- !app_assoc. f_equal. rewrite <- !app_comm_cons. do 2 f_equal.
  by rewrite <- app_assoc.
Qed.

Lemma marker_chars : (COLON ∉ MARKER) ∧ (NL ∉ MARKER) ∧ MARKER ≠ [].
Proof.
  rewrite MARKER_eq. split_and!; [| |done];
    intros Hin; repeat (apply elem_of_cons in Hin as [?|Hin]; [done|]);
    by apply elem_of_nil in Hin.
Qed.

Lemma piece_no_marker e :
  valid_entry e →
  contains MARKER (piece e) = false
  ∧ contains MARKER (piece e ++ [NL]) = false.
Proof.
  intros (_ & _ & _ & _ & Ht & Hc & _).
  destruct marker_chars as (Hcolon & Hnl & Hne).
  assert (contains MARKER [] = false) as Hnil by by rewrite MARKER_eq.
  assert (contains MARKER (NL :: snd e) = false) as Hc'
    by by apply (contains_sep MARKER [] NL).
  split.
  - by apply contains_sep.
  - assert (piece e ++ [NL] = fst e ++ COLON :: (NL :: snd e) ++ [NL]) as ->
      by (unfold piece; by rewrite <- app_assoc).
    apply contains_sep; [done..|]. by apply contains_sep.
Qed.

Lemma add_chunk_piece sections e ws :
  valid_entry e → Forall (λ c, is_space c = true) ws →
  add_chunk sections (piece e ++ ws) = <[fst e := snd e]> sections.
Proof.
  intros (Hne & Ht & Hncn & Hc & _) Hws.
  assert (piece e ++ ws = fst e ++ COLON :: (NL :: snd e) ++ ws) as ->
    by (unfold piece; by rewrite <- app_assoc).
  rewrite add_chunk_entry, chunk_entry_colon by done.
  rewrite <- (app_nil_l (fst e)) at 1. rewrite <- (app_nil_r (fst e)) at 1.
  rewrite (strip_around [] (fst e) []) by done.
  change ((NL :: snd e) ++ ws) with ([NL] ++ snd e ++ ws).
  rewrite strip_around; [done..| |done]. by repeat constructor.
Qed.

Lemma lstrip_piece e tail :
  valid_entry e →
  lstrip_with is_space (piece e ++ tail) = piece e ++ tail.
Proof.
  intros (Hne & [Hhead _] & _). apply lstrip_with_id.
  unfold piece. destruct (fst e) as [|c t]; [done|].
  intros d [= <-]. by apply Hhead.
Qed.

Lemma split_body sections e l :
  valid_entry e → Forall valid_entry l →
  foldl add_chunk sections
    (re_split heading_re (piece e ++ NL :: render_report l))
  = foldl (λ m e', <[fst e' := snd e']> m) (<[fst e := snd e]> sections) l.
Proof.
  intros He Hl. revert sections e He.
  induction Hl as [|e' l He' _ IH]; intros sections e He.
  - destruct (piece_no_marker e He) as [_ Hp].
    change (piece e ++ NL :: render_report []) with (piece e ++ [NL]).
    rewrite re_split_no_marker by done. simpl.
    apply add_chunk_piece; [done|]. by repeat constructor.
  - destruct (piece_no_marker e He) as [Hp _].
    rewrite render_report_cons, re_split_piece by done.
    rewrite lstrip_piece by done. cbn [foldl].
    rewrite <- (app_nil_r (piece e)), add_chunk_piece by done.
    by apply IH.
Qed.

Lemma foldl_insert_list_to_map (l : list (list N * list N)) :
  foldl (λ m e, <[fst e := snd e]> m) (∅ : gmap (list N) (list N)) l
  = list_to_map (reverse l).
Proof.
  induction l as [|e l IH] using rev_ind; [done|].
  rewrite foldl_app, reverse_snoc. simpl. rewrite IH. by destruct e.
Qed.

Lemma render_report_no_cr l :
  Forall valid_entry l → 13 ∉ render_report l.
Proof.
  induction 1 as [|e l (_ & _ & _ & _ & _ & _ & Ht & Hc) _ IH].
  - by intros ?%elem_of_nil.
  - rewrite render_report_cons, MARKER_eq. unfold piece.
    repeat (rewrite not_elem_of_app || rewrite not_elem_of_cons).
    split_and!; try done. apply not_elem_of_nil.
Qed.

(** X8: round trip.  A report written as one block [### title:], newline,
    content, newline per entry is split back into its entries, a later
    entry replacing an earlier one of the same title; the titles are not
    empty, stripped and without colon or newline, the contents stripped,
    and neither has the marker [###] or a carriage return. *)
Theorem split_sections_render_report l :
  Forall valid_entry l →
  split_sections (render_report l) = list_to_map (reverse l).
Proof.
  intros Hl. unfold split_sections, chunks.
  rewrite replace_crlf_id by by apply render_report_no_cr.
  rewrite <- foldl_insert_list_to_map.
  destruct Hl as [|e l He Hl]; [done|].
  rewrite render_report_cons, re_split_first, lstrip_piece by done.
  cbn [foldl]. change (add_chunk ∅ []) with (∅ : gmap (list N) (list N)).
  by apply split_body.
Qed.

Ltac valid_entry_tac :=
  split_and!;
  [ vm_compute; discriminate
  | split; intros c Hc; vm_compute in Hc; injection Hc as <-; reflexivity
  | apply forallb_Forall; vm_compute; reflexivity
  | split; intros c Hc; vm_compute in Hc; injection Hc as <-; reflexivity
  | vm_compute; reflexivity
  | vm_compute; reflexivity
  | apply forallb_not_elem; vm_compute; reflexivity
  | apply forallb_not_elem; vm_compute; reflexivity ].

Lemma split_sections_render_report_witness :
  render_report
    [ (py "Título", py "Meu script"); (py "Entradas", py "- a: 1\n\n- b");
      (py "Título", py "Outro") ]
  = py "### Título:\nMeu script\n### Entradas:\n- a: 1\n\n- b\n### Título:\nOutro\n"
  ∧ split_sections
      (render_report
         [ (py "Título", py "Meu script"); (py "Entradas", py "- a: 1\n\n- b");
           (py "Título", py "Outro") ])
    = list_to_map
        (reverse
           [ (py "Título", py "Meu script"); (py "Entradas", py "- a: 1\n\n- b");
             (py "Título", py "Outro") ]).
Proof.
  split; [vm_compute; reflexivity|].
  apply split_sections_render_report.
  repeat apply Forall_cons_2; [valid_entry_tac..|apply Forall_nil_2].
Defined.

(** ** [add_code_block] *)

Lemma split_nl_nonempty s : split_nl s ≠ [].
Proof.
  destruct s as [|c s]; [done|]. rewrite split_nl_cons.
  destruct (c =? NL); [done|]. by destruct (split_nl s).
Qed.

Lemma split_nl_length s : length (split_nl s) = S (count_nl s).
Proof.
  unfold count_nl. induction s as [|c s IH]; [done|].
  rewrite split_nl_cons, filter_cons.
  destruct (c =? NL) eqn:Hc.
  - apply N.eqb_eq in Hc as ->. rewrite decide_True by done. simpl. by rewrite IH.
  - apply N.eqb_neq in Hc. rewrite decide_False by done.
    rewrite <- IH. by destruct (split_nl s).
Qed.

Lemma split_nl_no_nl s : Forall (λ l, NL ∉ l) (split_nl s).
Proof.
  induction s as [|c s IH].
  - repeat constructor. by intros ?%elem_of_nil.
  - rewrite split_nl_cons. destruct (c =? NL) eqn:Hc.
    + constructor; [by intros ?%elem_of_nil|done].
    + apply N.eqb_neq in Hc. destruct (split_nl s) as [|l ls].
      * repeat constructor. intros Hin%list_elem_of_singleton. congruence.
      * inversion IH; subst. constructor; [|done].
        intros [Heq|?]%elem_of_cons; [congruence|done].
Qed.

Lemma join_split_nl s : join_nl (split_nl s) = s.
Proof.
  induction s as [|c s IH]; [done|]. rewrite split_nl_cons.
  destruct (c =? NL) eqn:Hc.
  - apply N.eqb_eq in Hc as ->. pose proof (split_nl_nonempty s).
    destruct (split_nl s) as [|l ls] eqn:Hs; [done|].
    rewrite <- IH. done.
  - pose proof (split_nl_nonempty s).
    destruct (split_nl s) as [|l ls] eqn:Hs; [done|].
    rewrite <- IH. by destruct ls.
Qed.

Lemma code_paragraphs_shape style lines :
  lines ≠ [] →
  ∃ front l,
    code_paragraphs style lines = front ++ [code_paragraph style (str_or l (py " ")) false]
    ∧ length front = pred (length lines)
    ∧ Forall (λ op, ∃ t, op = code_paragraph style t true) front.
Proof.
  induction lines as [|l lines IH]; [done|]. intros _.
  destruct lines as [|l' lines].
  - exists [], l. by split_and!.
  - destruct IH as (front & l0 & Heq & Hlen & Hfront); [done|].
    exists (code_paragraph style (str_or l (py " ")) true :: front), l0.
    split_and!.
    + cbn [code_paragraphs] in *. by rewrite Heq.
    + simpl in *. by rewrite Hlen.
    + constructor; [by eexists|done].
Qed.

(** X9: [add_code_block] adds one paragraph per line of the text, one more
    than the text, CR LF read as newline, has newlines, and so at least
    one; a line break follows the run of each paragraph but the last. *)
Theorem add_code_block_paragraphs styles text style_name :
  ∃ front t,
    add_code_block styles text style_name
      = front ++ [code_paragraph (code_style styles style_name) t false]
    ∧ length front = count_nl (replace_crlf text)
    ∧ Forall (λ op, ∃ t', op = code_paragraph (code_style styles style_name) t' true) front.
Proof.
  unfold add_code_block. cbv zeta.
  destruct (code_paragraphs_shape (code_style styles style_name)
              (split_nl (replace_crlf text)) (split_nl_nonempty _))
    as (front & l & Heq & Hlen & Hfront).
  exists front, (str_or l (py " ")). split_and!; [done| |done].
  by rewrite Hlen, split_nl_length.
Qed.

Lemma code_paragraphs_runs style lines :
  Forall (λ l, NL ∉ l) lines →
  Forall (λ op, ∃ t b, op = code_paragraph style t b ∧ t ≠ [] ∧ NL ∉ t)
    (code_paragraphs style lines).
Proof.
  assert (∀ l, NL ∉ l → str_or l (py " ") ≠ [] ∧ NL ∉ str_or l (py " ")) as Hrun.
  { intros [|c l] Hl; [|done]. split; [done|].
    by intros [= ]%list_elem_of_singleton. }
  induction 1 as [|l lines Hl _ IH]; [constructor|].
  destruct (Hrun l Hl) as [Hne Hnl].
  destruct lines as [|l' lines].
  - repeat constructor. by eexists _, _.
  - cbn [code_paragraphs] in *. constructor; [by eexists _, _|done].
Qed.

(** X10: no run of a code block is empty, an empty line giving a run of one
    space, and none has a newline; every paragraph has the style asked for
    when the template has it, and no style otherwise. *)
Theorem add_code_block_runs styles text style_name :
  Forall (λ op, ∃ t b,
            op = code_paragraph (code_style styles style_name) t b
            ∧ t ≠ [] ∧ NL ∉ t)
    (add_code_block styles text style_name).
Proof. apply code_paragraphs_runs, split_nl_no_nl. Qed.

Lemma code_texts_cons style t b ops :
  code_texts (code_paragraph style t b :: ops) = t :: code_texts ops.
Proof. done. Qed.

Lemma code_texts_paragraphs style lines :
  Forall (λ l, l ≠ []) lines →
  code_texts (code_paragraphs style lines) = lines.
Proof.
  induction 1 as [|l lines Hl _ IH]; [done|].
  assert (str_or l (py " ") = l) as Hrun by by destruct l.
  destruct lines as [|l' lines].
  - cbn [code_paragraphs]. by rewrite code_texts_cons, Hrun.
  - cbn [code_paragraphs] in *. by rewrite code_texts_cons, IH, Hrun.
Qed.

(** X11: round trip.  When the text has no empty line, the runs of its code
    block joined by newlines are the text, CR LF read as newline. *)
Theorem add_code_block_round_trip styles text style_name :
  Forall (λ l, l ≠ []) (split_nl (replace_crlf text)) →
  join_nl (code_texts (add_code_block styles text style_name))
    = replace_crlf text.
Proof.
  intros Hlines. unfold add_code_block. cbv zeta.
  by rewrite code_texts_paragraphs, join_split_nl.
Qed.

Lemma add_code_block_round_trip_witness :
  code_texts (add_code_block (λ _, true) (py "def f():\r\n  return 1") (py "CodeBlock"))
  = [ py "def f():"; py "  return 1" ]
  ∧ join_nl (code_texts (add_code_block (λ _, true) (py "def f():\r\n  return 1")
                           (py "CodeBlock")))
    = replace_crlf (py "def f():\r\n  return 1").
Proof.
  split; [vm_compute; reflexivity|].
  apply add_code_block_round_trip. vm_compute. repeat constructor; discriminate.
Defined.

(** ** The headings of the document *)

Lemma headings_app ops1 ops2 : headings (ops1 ++ ops2) = headings ops1 ++ headings ops2.
Proof. apply omap_app. Qed.

Lemma headings_code_paragraphs style lines : headings (code_paragraphs style lines) = [].
Proof.
  induction lines as [|l lines IH]; [done|].
  destruct lines as [|l' lines]; [done|]. cbn [code_paragraphs] in *.
  unfold headings in *. cbn [omap list_omap heading_text]. exact IH.
Qed.

Lemma headings_add_code_block styles text style_name :
  headings (add_code_block styles text style_name) = [].
Proof. apply headings_code_paragraphs. Qed.

Lemma headings_bullets items : headings (bullet <$> items) = [].
Proof. induction items as [|it items IH]; [done|]. exact IH. Qed.

Lemma headings_render_section styles key content :
  headings (render_section styles key content) = [key].
Proof.
  unfold render_section.
  change (headings (heading key 2 :: ?ops)) with (key :: headings ops).
  f_equal. destruct (bool_decide (key ∈ LIST_KEYS)).
  - destruct (bullet_items content) as [|it items] eqn:Hitems; [done|].
    apply (headings_bullets (it :: items)).
  - destruct (bool_decide (key = EXEMPLO) && _); [|done].
    apply headings_add_code_block.
Qed.

Lemma headings_render_key styles sections key :
  headings (render_key styles sections key)
  = if truthy_opt (sections !! key) then [key] else [].
Proof.
  unfold render_key. destruct (sections !! key) as [content|]; [|done].
  simpl. destruct (truthy content); [|done]. apply headings_render_section.
Qed.

Lemma headings_render_keys styles sections keys :
  headings (keys ≫= render_key styles sections)
  = filter (λ key, truthy_opt (sections !! key) = true) keys.
Proof.
  induction keys as [|key keys IH]; [done|].
  rewrite bind_cons, headings_app, IH, headings_render_key, filter_cons.
  destruct (truthy_opt (sections !! key)).
  - by rewrite decide_True.
  - by rewrite decide_False.
Qed.

Lemma headings_example_fallback styles sections code_from_md :
  headings (example_fallback styles sections code_from_md)
  = if fallback_fires sections code_from_md then [EXEMPLO] else [].
Proof.
  unfold example_fallback, fallback_fires.
  destruct (sections !! EXEMPLO) as [content|]; [|done].
  destruct (negb _ && _); [|done].
  change (headings (heading EXEMPLO 2 :: ?ops)) with (EXEMPLO :: headings ops).
  by rewrite headings_add_code_block.
Qed.

Lemma headings_source_annex styles source_code include_source :
  headings (source_annex styles source_code include_source)
  = if include_source then [ANNEX] else [].
Proof.
  unfold source_annex. destruct include_source; [|done].
  change (headings (heading ?t 2 :: ?ops)) with (t :: headings ops).
  rewrite headings_add_code_block. unfold ANNEX. reflexivity.
Qed.

Lemma headings_build styles md_text src_name source_code include_source :
  let sections := split_sections md_text in
  headings (build styles md_text src_name source_code include_source)
  = filter (λ key, truthy_opt (sections !! key) = true) SECTION_KEYS
    ++ (if fallback_fires sections (extract_fenced_code md_text)
        then [EXEMPLO] else [])
    ++ (if include_source then [ANNEX] else []).
Proof.
  intros sections. unfold build. cbv zeta.
  change (headings (title_paragraph ?t :: ?ops)) with (headings ops).
  rewrite !headings_app. unfold render_sections.
  by rewrite headings_render_keys, headings_example_fallback,
    headings_source_annex.
Qed.

(** X12: the level-2 headings of the document are, in this order, the keys
    of [SECTION_KEYS] that have a content, whatever their order in the
    text, then [EXEMPLO] when the fallback fires, then the heading of the
    annex when the source is included. *)
Theorem build_headings styles md_text src_name source_code include_source :
  let sections := split_sections md_text in
  headings (build styles md_text src_name source_code include_source)
  = filter (λ key, truthy_opt (sections !! key) = true) SECTION_KEYS
    ++ (if fallback_fires sections (extract_fenced_code md_text)
        then [EXEMPLO] else [])
    ++ (if include_source then [ANNEX] else []).
Proof. apply headings_build. Qed.

Lemma exemplo_in_keys :
  filter (λ t, t = EXEMPLO) SECTION_KEYS = [EXEMPLO]
  ∧ filter (λ t, t = EXEMPLO) [ANNEX] = [].
Proof. split; vm_compute; reflexivity. Qed.

(** X13: when the section [EXEMPLO] has a content without fenced code and
    the text has fenced code elsewhere, the document has the heading
    [EXEMPLO] twice: once over the prose of the section and once over the
    code of the fallback. *)
Theorem build_duplicate_heading styles md_text src_name source_code
    include_source content :
  split_sections md_text !! EXEMPLO = Some content →
  content ≠ [] →
  truthy_opt (extract_fenced_code content) = false →
  truthy_opt (extract_fenced_code md_text) = true →
  filter (λ t, t = EXEMPLO)
    (headings (build styles md_text src_name source_code include_source))
  = [EXEMPLO; EXEMPLO].
Proof.
  intros Hsec Hne Hcontent Hcode.
  pose proof (headings_build styles md_text src_name source_code
                include_source) as Hbuild.
  cbv zeta in Hbuild. rewrite Hbuild. clear Hbuild.
  unfold fallback_fires. rewrite Hsec, Hcontent, Hcode. cbn [negb andb].
  destruct exemplo_in_keys as [Hkeys Hannex].
  rewrite !filter_app, list_filter_filter.
  rewrite (list_filter_iff _
             (λ key, truthy_opt (split_sections md_text !! key) = true
                     ∧ key = EXEMPLO)) by (intros key; tauto).
  rewrite <- list_filter_filter, Hkeys.
  rewrite (filter_cons _ EXEMPLO []), decide_True.
  2:{ rewrite Hsec. by destruct content. }
  rewrite (filter_cons _ EXEMPLO []), decide_True by reflexivity.
  rewrite !filter_nil.
  destruct include_source; [by rewrite Hannex|reflexivity].
Qed.

Lemma build_duplicate_heading_witness :
  filter (λ t, t = EXEMPLO)
    (headings
       (build (λ _, true)
          (py "### Exemplo de Uso:\nveja abaixo\n### Entradas:\n```\nrun()\n```\n")
          (py "s.py") (py "pass") true))
  = [EXEMPLO; EXEMPLO].
Proof.
  apply (build_duplicate_heading _ _ _ _ _ (py "veja abaixo"));
    first [vm_compute; reflexivity | vm_compute; discriminate].
Defined.

(** ** What the document depends on *)

Lemma render_keys_agree (styles : list N → bool)
    (s1 s2 : gmap (list N) (list N)) (keys : list (list N)) :
  (∀ key, key ∈ keys → s1 !! key = s2 !! key) →
  keys ≫= render_key styles s1 = keys ≫= render_key styles s2.
Proof.
  induction keys as [|key keys IH]; intros Hkeys; [done|].
  rewrite !bind_cons. f_equal.
  - unfold render_key. rewrite Hkeys; [done|by left].
  - apply IH. intros k Hk. apply Hkeys. by right.
Qed.

Lemma titulo_exemplo_keys : py "Título" ∈ SECTION_KEYS ∧ EXEMPLO ∈ SECTION_KEYS.
Proof. split; unfold SECTION_KEYS, EXEMPLO; repeat constructor. Qed.

(** X14: the document depends on the text only through the contents of the
    eight keys of [SECTION_KEYS] and the first fenced block: sections
    under any other heading never reach it. *)
Theorem build_known_keys styles md1 md2 src_name source_code include_source :
  (∀ key, key ∈ SECTION_KEYS →
          split_sections md1 !! key = split_sections md2 !! key) →
  extract_fenced_code md1 = extract_fenced_code md2 →
  build styles md1 src_name source_code include_source
  = build styles md2 src_name source_code include_source.
Proof.
  intros Hkeys Hcode. destruct titulo_exemplo_keys as [Ht He].
  unfold build, render_sections, example_fallback. cbv zeta.
  rewrite (render_keys_agree styles _ _ _ Hkeys).
  by rewrite (Hkeys _ Ht), (Hkeys _ He), Hcode.
Qed.

Lemma build_known_keys_witness :
  build (λ _, true) (py "### Título:\nA\n### Notas:\nfora da lista\n")
    (py "s.py") (py "pass") true
  = build (λ _, true) (py "### Título:\nA\n") (py "s.py") (py "pass") true.
Proof.
  apply build_known_keys; [|vm_compute; reflexivity].
  intros key Hkey. unfold SECTION_KEYS in Hkey.
  repeat (apply elem_of_cons in Hkey as [->|Hkey]; [vm_compute; reflexivity|]).
  by apply elem_of_nil in Hkey.
Defined.

(** The lines of [splitlines] have no line boundary in them. *)
Lemma splitlines_from_no_break cur s :
  Forall (λ c, is_linebreak c = false) cur →
  Forall (Forall (λ c, is_linebreak c = false)) (splitlines_from cur s).
Proof.
  revert cur. induction s as [s IH] using (induction_ltof1 _ length).
  unfold ltof in IH. intros cur Hcur.
  assert (Forall (λ c, is_linebreak c = false) (reverse cur)) as Hrev
    by by apply Forall_reverse.
  destruct s as [|c s].
  - simpl. destruct cur; [constructor|]. by repeat constructor.
  - rewrite splitlines_from_cons. destruct s as [|d s].
    + destruct (is_linebreak c) eqn:Hc.
      * by repeat constructor.
      * simpl. repeat constructor. apply Forall_reverse. by constructor.
    + destruct ((c =? 13) && (d =? 10)).
      * constructor; [done|]. apply IH; [simpl; lia|constructor].
      * destruct (is_linebreak c) eqn:Hc.
        -- constructor; [done|]. apply IH; [simpl; lia|constructor].
        -- apply IH; [simpl; lia|by constructor].
Qed.

Lemma Forall_drop_strip (P : N → Prop) n s : Forall P s → Forall P (strip (drop n s)).
Proof. intros H. apply strip_Forall. by apply Forall_drop. Qed.

(** X15: every bullet item is stripped and has no line boundary in it. *)
Theorem bullet_items_single_line content :
  Forall (λ item, trimmed item ∧ Forall (λ c, is_linebreak c = false) item)
    (bullet_items content).
Proof.
  unfold bullet_items. apply Forall_fmap, Forall_forall.
  intros ln [_ Hln]%list_elem_of_filter. simpl. split; [apply strip_trimmed|].
  apply Forall_drop_strip.
  pose proof (splitlines_from_no_break [] content (Forall_nil_2 _)) as Hlines.
  rewrite Forall_forall in Hlines. by apply Hlines.
Qed.
